(** * The explicit diffusion stepper of the fault-scarp tutorial

    The notebook [fault_scarp/landlab-fault-scarp-unexpanded.ipynb] builds a
    raster grid, attaches an elevation field [z] to its nodes and a flux
    field [qs] to its links, and runs the loop

<<
    for i in range(25):
        g = mg.calc_grad_at_link(z)
        qs[mg.active_links] = -D * g[mg.active_links]
        dqsdx = mg.calc_flux_div_at_node(qs)
        dzdt = -dqsdx
        z[mg.core_nodes] += dzdt[mg.core_nodes] * dt
>>

    This file embeds the loop body, the NumPy indexing it uses and the grid
    operators it calls, and proves the properties the specification states
    about it. *)

From Stdlib Require Import QArith Qreduction Qabs Qminmax Lqa Lia.
From Stdlib Require Import Floats.PrimFloat.
From stdpp Require Import base list.

(** ** Scalars

    The arrays of the notebook hold numbers.  The stepper is written once,
    over any carrier with the six operations the loop uses; statements that
    only depend on which array cells are read and written hold for every
    such carrier.  Statements about values are proved for exact rational
    arithmetic. *)

Class Scalar (A : Type) : Type := {
  fzero : A;
  fadd : A → A → A;
  fsub : A → A → A;
  fmul : A → A → A;
  fdiv : A → A → A;
  fneg : A → A
}.

(** Rationals kept in lowest terms after each operation. *)
#[export] Instance Q_scalar : Scalar Q := {|
  fzero := 0%Q;
  fadd := Qplus';
  fsub := Qminus';
  fmul := Qmult';
  fdiv := λ x y, Qred (x / y);
  fneg := λ x, Qred (- x)
|}.

(** IEEE 754 binary64, the arithmetic of the NumPy arrays of the notebook. *)
#[export] Instance binary64_scalar : Scalar float := {|
  fzero := 0%float;
  fadd := PrimFloat.add;
  fsub := PrimFloat.sub;
  fmul := PrimFloat.mul;
  fdiv := PrimFloat.div;
  fneg := PrimFloat.opp
|}.

(** ** Faults

    Indexing a NumPy array out of range raises [IndexError]; assigning or
    passing an array of the wrong size raises [ValueError]. *)

Inductive Fault : Set := IndexError | ValueError.

Inductive result (T : Type) : Type :=
  | Ok (v : T)
  | Raise (e : Fault).
Arguments Ok {T} v.
Arguments Raise {T} e.

#[export] Instance result_ret : MRet result := @Ok.
#[export] Instance result_bind : MBind result := λ T U f m,
  match m with Ok v => f v | Raise e => Raise e end.

Fixpoint mapR {X Y : Type} (f : X → result Y) (l : list X) : result (list Y) :=
  match l with
  | [] => Ok []
  | x :: l' => y ← f x; ys ← mapR f l'; Ok (y :: ys)
  end.

(** ** NumPy indexing *)

Section NumPy.
Context {T : Type}.

(** [a[i]] *)
Definition getitem (a : list T) (i : nat) : result T :=
  match a !! i with
  | Some x => Ok x
  | None => Raise IndexError
  end.

(** [a[idx]] for an index array [idx] *)
Definition take (a : list T) (idx : list nat) : result (list T) :=
  mapR (getitem a) idx.

(** [a[idx] = vals] for an index array [idx]: cell [idx[k]] receives
    [vals[k]], in order. *)
Fixpoint put (a : list T) (idx : list nat) (vals : list T) : result (list T) :=
  match idx, vals with
  | [], [] => Ok a
  | i :: idx', v :: vals' =>
      if decide (i < length a) then put (<[i := v]> a) idx' vals'
      else Raise IndexError
  | _, _ => Raise ValueError
  end.
End NumPy.

(** [numpy.where(mask)]: the positions that hold [True], ascending. *)
Fixpoint where_from (i : nat) (mask : list bool) : list nat :=
  match mask with
  | [] => []
  | b :: mask' => if b then i :: where_from (S i) mask' else where_from (S i) mask'
  end.

Definition where_ (mask : list bool) : list nat := where_from 0 mask.

(** ** The grid

    [RasterModelGrid], its node statuses, [active_links], [core_nodes],
    [calc_grad_at_link] and [calc_flux_div_at_node] belong to the landlab
    library that the notebooks import.  They are embedded as far as the loop
    uses them, after the library's documentation; the lemmas
    [working_with_fields_output], [tutorial_grid_counts] and
    [documented_example] below check the embedding against outputs recorded
    in the notebooks and in that documentation. *)

Inductive NodeStatus : Set :=
  | CORE_NODE
  | FIXED_VALUE_BOUNDARY
  | CLOSED_BOUNDARY.

#[export] Instance NodeStatus_eq_dec : EqDecision NodeStatus.
Proof. solve_decision. Defined.

Definition is_core (s : NodeStatus) : bool :=
  match s with CORE_NODE => true | _ => false end.

Definition is_closed (s : NodeStatus) : bool :=
  match s with CLOSED_BOUNDARY => true | _ => false end.

Section Grid.
Context {A : Type} `{Scalar A}.

(** A link runs from its tail node to its head node.  It crosses one face
    of the cells around its end nodes; [width_of_face] is the width of that
    face (the library indexes it by face, here it is kept with the link). *)
Record Link : Type := mkLink {
  node_at_link_tail : nat;
  node_at_link_head : nat;
  length_of_link : A;
  width_of_face : A
}.

(** [area_of_cell] is indexed by node: [Some a] for a node that owns a cell
    of area [a], [None] for a node without a cell (the perimeter of a
    raster). *)
Record ModelGrid : Type := mkGrid {
  status_at_node : list NodeStatus;
  links : list Link;
  area_of_cell : list (option A)
}.

Definition number_of_nodes (mg : ModelGrid) : nat := length (status_at_node mg).
Definition number_of_links (mg : ModelGrid) : nat := length (links mg).

Definition status_of (mg : ModelGrid) (n : nat) : NodeStatus :=
  default CLOSED_BOUNDARY (status_at_node mg !! n).

(** [mg.core_nodes] *)
Definition core_nodes (mg : ModelGrid) : list nat :=
  where_ (map is_core (status_at_node mg)).

(** A link is active when one end is a core node and the other end is not
    closed. *)
Definition link_is_active (mg : ModelGrid) (l : Link) : bool :=
  let t := status_of mg (node_at_link_tail l) in
  let h := status_of mg (node_at_link_head l) in
  (is_core t && negb (is_closed h)) || (is_core h && negb (is_closed t)).

(** [mg.active_links] *)
Definition active_links (mg : ModelGrid) : list nat :=
  where_ (map (link_is_active mg) (links mg)).

(** [mg.add_zeros('node', ...)] and [mg.add_zeros('link', ...)] *)
Definition add_zeros_at_node (mg : ModelGrid) : list A :=
  replicate (number_of_nodes mg) fzero.
Definition add_zeros_at_link (mg : ModelGrid) : list A :=
  replicate (number_of_links mg) fzero.

(** [mg.calc_grad_at_link(z)]: on every link, the value at the head minus
    the value at the tail, over the length of the link.

    The library does not check the size of [z].  Here [z] is read through
    [getitem], which agrees with the library when [z] has one value per
    node; every statement below about the loop assumes that it has. *)
Definition grad_at (z : list A) (l : Link) : result A :=
  zh ← getitem z (node_at_link_head l);
  zt ← getitem z (node_at_link_tail l);
  Ok (fdiv (fsub zh zt) (length_of_link l)).

Definition calc_grad_at_link (mg : ModelGrid) (z : list A) : result (list A) :=
  mapR (grad_at z) (links mg).

(** Net flux out of node [n]: the unit flux of every link times the width
    of the face it crosses, added where the link leaves [n] and
    subtracted where it enters [n]. *)
Fixpoint net_flux (n : nat) (ls : list Link) (q : list A) : A :=
  match ls, q with
  | l :: ls', x :: q' =>
      let total := fmul x (width_of_face l) in
      if decide (node_at_link_tail l = n) then fadd (net_flux n ls' q') total
      else if decide (node_at_link_head l = n) then fsub (net_flux n ls' q') total
      else net_flux n ls' q'
  | _, _ => fzero
  end.

Definition flux_div_at (mg : ModelGrid) (q : list A) (n : nat) : A :=
  match area_of_cell mg !! n with
  | Some (Some a) => fdiv (net_flux n (links mg) q) a
  | _ => fzero
  end.

(** [mg.calc_flux_div_at_node(q)]: at every node that owns a cell, the net
    outflux through the faces of the cell divided by the area of the cell;
    zero at the other nodes.  An array that does not have one value per link
    is refused. *)
Definition calc_flux_div_at_node (mg : ModelGrid) (q : list A) : result (list A) :=
  if decide (length q = number_of_links mg)
  then Ok (map (flux_div_at mg q) (seq 0 (number_of_nodes mg)))
  else Raise ValueError.

(** ** The stepper *)

Record State : Type := mkState {
  topographic__elevation : list A;
  sediment_flux : list A
}.

(** One pass through the body of the time loop.  [z[idx] += v] reads
    [z[idx]], adds, and assigns the result back to [z[idx]]. *)
Definition step (mg : ModelGrid) (D dt : A) (s : State) : result State :=
  let z := topographic__elevation s in
  let qs := sediment_flux s in
  g ← calc_grad_at_link mg z;
  ga ← take g (active_links mg);
  qs' ← put qs (active_links mg) (map (fmul (fneg D)) ga);
  dqsdx ← calc_flux_div_at_node mg qs';
  let dzdt := map fneg dqsdx in
  zc ← take z (core_nodes mg);
  dc ← take dzdt (core_nodes mg);
  z' ← put z (core_nodes mg) (zip_with fadd zc (map (λ v, fmul v dt) dc));
  Ok (mkState z' qs').

(** [for i in range(k): ...] *)
Fixpoint run (k : nat) (mg : ModelGrid) (D dt : A) (s : State) : result State :=
  match k with
  | O => Ok s
  | S k' => s' ← step mg D dt s; run k' mg D dt s'
  end.

(** ** Raster grids *)

Definition on_perimeter (nrows ncols n : nat) : bool :=
  let r := (n / ncols)%nat in
  let c := (n mod ncols)%nat in
  (r =? 0)%nat || (S r =? nrows)%nat || (c =? 0)%nat || (S c =? ncols)%nat.

Definition horizontal_links (ncols : nat) (dx : A) (r : nat) : list Link :=
  map (λ c, mkLink (r * ncols + c) (r * ncols + c + 1) dx dx) (seq 0 (ncols - 1)).

Definition vertical_links (ncols : nat) (dx : A) (r : nat) : list Link :=
  map (λ c, mkLink (r * ncols + c) ((r + 1) * ncols + c) dx dx) (seq 0 ncols).

Definition raster_links (nrows ncols : nat) (dx : A) : list Link :=
  flat_map (λ r, horizontal_links ncols dx r ++
                 (if (S r <? nrows)%nat then vertical_links ncols dx r else []))
           (seq 0 nrows).

(** [RasterModelGrid((nrows, ncols), dx)]: nodes are numbered row by row
    from the lower left; the links of a row come first (pointing to
    increasing x), then the links to the next row (pointing to increasing
    y).  Perimeter nodes are fixed-value boundaries and own no cell; all
    other nodes are core nodes with a square cell.

    This follows the library for rasters of at least 3 x 3 nodes, the
    rasters that have a core node; the shapes written in the notebooks
    (25 x 40, 3 x 4, 80 x 80) are among them.  The library refuses a raster
    with a single row or column; the theorems that range over shapes assume
    at least three rows and three columns. *)
Definition RasterModelGrid (nrows ncols : nat) (dx : A) : ModelGrid :=
  let nodes := seq 0 (nrows * ncols) in
  mkGrid
    (map (λ n, if on_perimeter nrows ncols n
               then FIXED_VALUE_BOUNDARY else CORE_NODE) nodes)
    (raster_links nrows ncols dx)
    (map (λ n, if on_perimeter nrows ncols n
               then None else Some (fmul dx dx)) nodes).

(** [mg.set_closed_boundaries_at_grid_edges(right, top, left, bottom)]:
    the nodes of every edge whose flag is set become closed; the corners
    belong to the bottom and top edges. *)
Definition set_closed_boundaries_at_grid_edges
    (nrows ncols : nat) (right top left bottom : bool) (mg : ModelGrid) : ModelGrid :=
  let closes (n : nat) : bool :=
    let r := (n / ncols)%nat in
    let c := (n mod ncols)%nat in
    let mid := negb (r =? 0)%nat && negb (S r =? nrows)%nat in
    (bottom && (r =? 0)%nat) || (top && (S r =? nrows)%nat) ||
    (left && mid && (c =? 0)%nat) || (right && mid && (S c =? ncols)%nat) in
  mkGrid
    (imap (λ n s, if closes n then CLOSED_BOUNDARY else s) (status_at_node mg))
    (links mg)
    (area_of_cell mg).
End Grid.

Arguments Link A : clear implicits.
Arguments ModelGrid A : clear implicits.
Arguments State A : clear implicits.

(** ** Reading a state

    Total lookup [a !!! i] reads cell [i] of an array. *)

#[export] Instance Scalar_inhabited {A : Type} `{Scalar A} : Inhabited A :=
  populate fzero.

Section Reading.
Context {A : Type} `{Scalar A}.
Implicit Types (mg : ModelGrid A) (z qs : list A) (s : State A) (l : Link A).

(** Every link joins two distinct nodes of the grid. *)
Definition well_formed mg : bool :=
  forallb (λ l, (node_at_link_tail l <? number_of_nodes mg)%nat &&
                (node_at_link_head l <? number_of_nodes mg)%nat &&
                negb (node_at_link_tail l =? node_at_link_head l)%nat)
          (links mg).

(** The arrays of a state have one cell per node and one per link. *)
Definition fits mg s : Prop :=
  length (topographic__elevation s) = number_of_nodes mg ∧
  length (sediment_flux s) = number_of_links mg.

Definition grad_value z l : A :=
  fdiv (fsub (z !!! node_at_link_head l) (z !!! node_at_link_tail l))
       (length_of_link l).

(** The flux the step stores on a link, and the elevation it stores at a
    node, as functions of the state it started from. *)
Definition flux_after mg (D : A) s (i : nat) l : A :=
  if link_is_active mg l
  then fmul (fneg D) (grad_value (topographic__elevation s) l)
  else sediment_flux s !!! i.

Definition elevation_after mg (dt : A) s (qs' : list A) (n : nat) : A :=
  if is_core (status_of mg n)
  then fadd (topographic__elevation s !!! n)
            (fmul (fneg (flux_div_at mg qs' n)) dt)
  else topographic__elevation s !!! n.

(** The nodes at the other end of the active links of node [n]. *)
Definition far_ends mg (n : nat) (ls : list (Link A)) : list nat :=
  flat_map (λ l, if link_is_active mg l
                 then if decide (node_at_link_tail l = n) then [node_at_link_head l]
                      else if decide (node_at_link_head l = n) then [node_at_link_tail l]
                      else []
                 else [])
           ls.

Definition active_neighbours mg (n : nat) : list nat :=
  far_ends mg n (links mg).

(** [holds_along k P i mg D dt s]: the loop runs [k] times from [s] and
    [P (i + j)] holds of the state after [j] passes, for every [j <= k]. *)
Fixpoint holds_along (k : nat) (P : nat → State A → bool) (i : nat)
    mg (D dt : A) s : bool :=
  P i s &&
  match k with
  | O => true
  | S k' =>
      match step mg D dt s with
      | Ok s' => holds_along k' P (S i) mg D dt s'
      | Raise _ => false
      end
  end.

(** Number of links of [ls] that start or end at node [n]. *)
Fixpoint degree (n : nat) (ls : list (Link A)) : nat :=
  match ls with
  | [] => 0
  | l :: ls' =>
      (if decide (node_at_link_tail l = n ∨ node_at_link_head l = n) then 1 else 0)
      + degree n ls'
  end.
End Reading.

(** ** The program's flux array

    [qs] is created by [add_zeros] and the loop only ever assigns to its
    active links: the cells of the inactive links hold zero throughout. *)

Definition flux_clean {A : Type} `{Scalar A} (mg : ModelGrid A) (qs : list A) : Prop :=
  ∀ i l, links mg !! i = Some l → link_is_active mg l = false → qs !!! i = fzero.

(** ** The grids of the tutorial and of the specification's scenario *)

(** [RasterModelGrid((25, 40), 10.0)] with the east and west edges closed. *)
Definition tutorial_grid : ModelGrid Q :=
  set_closed_boundaries_at_grid_edges 25 40 true false true false
    (RasterModelGrid 25 40 10%Q).

(** A 5 x 5 raster of spacing 1 with all four edges closed. *)
Definition scenario_grid : ModelGrid Q :=
  set_closed_boundaries_at_grid_edges 5 5 true true true true
    (RasterModelGrid 5 5 1%Q).

(** A flat field of zeros with node [p] raised to [h]. *)
Definition bump (mg : ModelGrid Q) (p : nat) (h : Q) : list Q :=
  <[p := h]> (add_zeros_at_node mg).

Definition scenario_state (p : nat) : State Q :=
  mkState (bump scenario_grid p 10%Q) (add_zeros_at_link scenario_grid).

(** ** The update in exact arithmetic

    What the arrays hold after a step, written with the plain operations of
    [Q]. *)

Section Exact.
Local Open Scope Q_scope.
Implicit Types (mg : ModelGrid Q) (z : list Q) (l : Link Q).

(** Gradient along a link: head minus tail, over the length. *)
Definition gradient z l : Q :=
  (z !!! node_at_link_head l - z !!! node_at_link_tail l) / length_of_link l.

(** Flux per unit width on a link. *)
Definition unit_flux mg (D : Q) z l : Q :=
  if link_is_active mg l then - D * gradient z l else 0.

(** Sum over the links incident to node [n] of a quantity [F] that is
    counted positive along the link: [F l] where the link leaves [n],
    [- F l] where it enters [n]. *)
Fixpoint signed_sum (n : nat) (F : Link Q → Q) (ls : list (Link Q)) : Q :=
  match ls with
  | [] => 0
  | l :: ls' =>
      (if decide (node_at_link_tail l = n) then F l
       else if decide (node_at_link_head l = n) then - F l
       else 0) + signed_sum n F ls'
  end.

(** Divergence at a node: net outflux through the faces of its cell per
    unit area. *)
Definition divergence mg (D : Q) z (n : nat) : Q :=
  match area_of_cell mg !! n with
  | Some (Some a) =>
      signed_sum n (λ l, unit_flux mg D z l * width_of_face l) (links mg) / a
  | _ => 0
  end.

(** Elevation of node [n] after one step. *)
Definition diffused mg (D dt : Q) z (n : nat) : Q :=
  if is_core (status_of mg n)
  then z !!! n + - divergence mg D z n * dt
  else z !!! n.

(** The divergence as the specification words it: the signed sum of the
    fluxes on the incident links, outflux positive, with no reference to
    face widths or cell areas. *)
Definition spec_divergence mg (D : Q) z (n : nat) : Q :=
  signed_sum n (unit_flux mg D z) (links mg).

Definition spec_diffused mg (D dt : Q) z (n : nat) : Q :=
  if is_core (status_of mg n)
  then z !!! n + - spec_divergence mg D z n * dt
  else z !!! n.

(** Largest and smallest value over a node and its active neighbours. *)
Definition local_max mg z (n : nat) : Q :=
  foldr (λ m acc, Qmax (z !!! m) acc) (z !!! n) (active_neighbours mg n).

Definition local_min mg z (n : nat) : Q :=
  foldr (λ m acc, Qmin (z !!! m) acc) (z !!! n) (active_neighbours mg n).

(** Sum of [f] over a list of nodes. *)
Fixpoint sum_at (f : nat → Q) (ns : list nat) : Q :=
  match ns with
  | [] => 0
  | n :: ns' => f n + sum_at f ns'
  end.

(** A grid of uniform spacing [dx]: every link has length [dx] and crosses
    a face of width [dx], every cell has area [dx * dx], and every core
    node owns a cell. *)
Definition uniform_spacing mg (dx : Q) : bool :=
  forallb (λ l, Qeq_bool (length_of_link l) dx && Qeq_bool (width_of_face l) dx)
          (links mg) &&
  forallb (λ c, match c with Some a => Qeq_bool a (dx * dx) | None => true end)
          (area_of_cell mg) &&
  forallb (λ n, match area_of_cell mg !! n with Some (Some _) => true | _ => false end)
          (core_nodes mg).

(** Every boundary node is closed. *)
Definition all_boundaries_closed mg : bool :=
  forallb (λ st, negb (bool_decide (st = FIXED_VALUE_BOUNDARY))) (status_at_node mg).
(** Every core node has at most four active neighbours, as on a raster. *)
Definition at_most_four_neighbours (mg : ModelGrid Q) : bool :=
  forallb (λ n, (length (active_neighbours mg n) <=? 4)%nat) (core_nodes mg).

End Exact.

(** ** Scenarios *)

Section Scenarios.
Local Open Scope Q_scope.

(** A 3 x 3 raster of spacing 2 with the default (fixed-value) perimeter:
    one core node, node 4. *)
Definition coarse_grid : ModelGrid Q := RasterModelGrid 3 3 2.



(** [dt = 0.2 * mg.dx * mg.dx / D] *)
Definition courant_dt (dx D : Q) : Q :=
  fdiv (fmul (fmul (2 # 10) dx) dx) D.

(** Largest absolute value of a field. *)
Definition magnitude (z : list Q) : Q :=
  foldr (λ x acc, Qmax (Qabs x) acc) 0 z.

(** The field is no larger than the initial perturbation of 10. *)
Definition not_grown (j : nat) (s : State Q) : bool :=
  Qle_bool (magnitude (topographic__elevation s)) 10.




End Scenarios.

(** ** The scenario in binary64 *)

Section Binary64.
Local Open Scope float_scope.

Definition scenario_grid64 : ModelGrid float :=
  set_closed_boundaries_at_grid_edges 5 5 true true true true
    (RasterModelGrid 5 5 1).

Definition scenario_state64 (p : nat) : State float :=
  mkState (<[p := 10]> (add_zeros_at_node scenario_grid64))
          (add_zeros_at_link scenario_grid64).

(** [D = 0.1] and [dt = 0.2 * mg.dx * mg.dx / D], with the decimal literals
    rounded to the nearest binary64 number as Python does. *)
Definition D64 : float := 0x1.999999999999ap-4.
Definition dt64 : float := 0x1.999999999999ap-3 * 1 * 1 / D64.

(** Largest absolute value of a field. *)
Definition magnitude64 (z : list float) : float :=
  foldr (λ x acc, if PrimFloat.ltb acc (PrimFloat.abs x) then PrimFloat.abs x else acc) 0 z.

Definition not_grown64 (j : nat) (s : State float) : bool :=
  PrimFloat.leb (magnitude64 (topographic__elevation s)) 10.

(** The field is at least [5 * 2^j] large after [j] passes. *)
Definition blown_up64 (j : nat) (s : State float) : bool :=
  PrimFloat.leb (Nat.iter j (PrimFloat.mul 2) 5) (magnitude64 (topographic__elevation s)).
End Binary64.

(** ** The budget of the core nodes *)

Section Budget.
Local Open Scope Q_scope.

(** Sum of [F] over a list of links. *)
Fixpoint link_sum (F : Link Q → Q) (ls : list (Link Q)) : Q :=
  match ls with
  | [] => 0
  | l :: ls' => F l + link_sum F ls'
  end.

(** Net flux that leaves the set of core nodes: the flux of every link times
    the width of its face, counted positive where the link runs from a core
    node to a node that is not one, negative where it runs into a core node
    from outside, and not at all where both or neither end is a core node. *)
Definition outflow mg (D : Q) (z : list Q) : Q :=
  link_sum (λ l, unit_flux mg D z l * width_of_face l *
                 ((if decide (node_at_link_tail l ∈ core_nodes mg) then 1 else 0) -
                  (if decide (node_at_link_head l ∈ core_nodes mg) then 1 else 0)))
           (links mg).
End Budget.

(** ** The fault scarp

    The cells of the notebook before the time loop: node coordinates, the
    fault trace, the uplift of the nodes north of it, the time step, the
    boundary conditions and the flux array. *)

Section Scarp.
Local Open Scope Q_scope.

(** [mg.x_of_node] and [mg.y_of_node] of a raster: column and row of the
    node times the spacing. *)
Definition x_of_node (nrows ncols : nat) (dx : Q) : list Q :=
  map (λ n, fmul (inject_Z (Z.of_nat (n mod ncols))) dx) (seq 0 (nrows * ncols)).

Definition y_of_node (nrows ncols : nat) (dx : Q) : list Q :=
  map (λ n, fmul (inject_Z (Z.of_nat (n / ncols))) dx) (seq 0 (nrows * ncols)).

(** [fault_trace_y = 50.0 + 0.25 * mg.x_of_node] *)
Definition fault_trace_y (xs : list Q) : list Q :=
  map (λ x, fadd 50 (fmul (1 # 4) x)) xs.

(** [upthrown_nodes = numpy.where(mg.y_of_node > fault_trace_y)] *)
Definition upthrown_nodes (xs ys : list Q) : list nat :=
  where_ (zip_with (λ y f, negb (Qle_bool y f)) ys (fault_trace_y xs)).

(** [z[upthrown_nodes] += 10.0 + 0.01 * mg.x_of_node[upthrown_nodes]] *)
Definition earthquake (xs ys z : list Q) : result (list Q) :=
  let up := upthrown_nodes xs ys in
  zu ← take z up;
  xu ← take xs up;
  put z up (zip_with fadd zu (map (λ x, fadd 10 (fmul (1 # 100) x)) xu)).

(** The notebook from the grid to the end of the time loop, for a raster of
    [nrows] by [ncols] nodes (at least 3 x 3) of spacing [dx], diffusivity
    [D] and [k] passes; the notebook itself is
    [fault_scarp 25 40 10 (1 # 100) 25]. *)
Definition fault_scarp (nrows ncols : nat) (dx D : Q) (k : nat) : result (State Q) :=
  let mg := RasterModelGrid nrows ncols dx in
  let z := add_zeros_at_node mg in
  z ← earthquake (x_of_node nrows ncols dx) (y_of_node nrows ncols dx) z;
  let dt := courant_dt dx D in
  let mg := set_closed_boundaries_at_grid_edges nrows ncols true false true false mg in
  let qs := add_zeros_at_link mg in
  run k mg D dt (mkState z qs).
End Scarp.

(** ** The boundary conditions of the component tutorial

    [component_tutorial/component_tutorial_unexpanded.ipynb] sets the node
    statuses edge by edge:

<<
    for edge in (mg.nodes_at_left_edge, mg.nodes_at_right_edge):
        mg.status_at_node[edge] = CLOSED_BOUNDARY
    for edge in (mg.nodes_at_top_edge, mg.nodes_at_bottom_edge):
        mg.status_at_node[edge] = FIXED_VALUE_BOUNDARY
>>
    The four edges of a raster each run from corner to corner. *)

Definition nodes_at_left_edge (nrows ncols : nat) : list nat :=
  map (λ r, r * ncols) (seq 0 nrows).

Definition nodes_at_right_edge (nrows ncols : nat) : list nat :=
  map (λ r, r * ncols + (ncols - 1)) (seq 0 nrows).

Definition nodes_at_top_edge (nrows ncols : nat) : list nat :=
  seq ((nrows - 1) * ncols) ncols.

Definition nodes_at_bottom_edge (nrows ncols : nat) : list nat :=
  seq 0 ncols.

(** [a[idx] = v] for a scalar [v], which NumPy repeats over [idx]. *)
Definition put_scalar {T : Type} (a : list T) (idx : list nat) (v : T) : result (list T) :=
  put a idx (replicate (length idx) v).

Definition component_tutorial_boundaries {A : Type}
    (nrows ncols : nat) (mg : ModelGrid A) : result (ModelGrid A) :=
  s ← put_scalar (status_at_node mg) (nodes_at_left_edge nrows ncols) CLOSED_BOUNDARY;
  s ← put_scalar s (nodes_at_right_edge nrows ncols) CLOSED_BOUNDARY;
  s ← put_scalar s (nodes_at_top_edge nrows ncols) FIXED_VALUE_BOUNDARY;
  s ← put_scalar s (nodes_at_bottom_edge nrows ncols) FIXED_VALUE_BOUNDARY;
  Ok (mkGrid s (links mg) (area_of_cell mg)).

(** ** The range of the data of a digital elevation model

    [part_000] reads a grid of elevations in which the cells without data
    hold a negative code, and takes the range of the others:

<<
    min_z = np.min(z[np.where(z>0)])
    max_z = np.max(z[np.where(z>0)])
>>
    [numpy.min] and [numpy.max] raise [ValueError] on an empty array. *)

Definition np_min (a : list Q) : result Q :=
  match a with
  | [] => Raise ValueError
  | x :: a' => Ok (foldl Qmin x a')
  end.

Definition np_max (a : list Q) : result Q :=
  match a with
  | [] => Raise ValueError
  | x :: a' => Ok (foldl Qmax x a')
  end.

Definition positive (v : Q) : bool := negb (Qle_bool v 0).

Definition min_z (z : list Q) : result Q :=
  data ← take z (where_ (map positive z));
  np_min data.

Definition max_z (z : list Q) : result Q :=
  data ← take z (where_ (map positive z));
  np_max data.

(** ** Further scenarios *)

(** The 3 x 3 raster of spacing 2, flat at 0 with its core node raised to
    [h], and no flux. *)
Definition coarse_state (h : Q) : State Q :=
  mkState (bump coarse_grid 4 h) (add_zeros_at_link coarse_grid).

(** The same elevations with a flux of 7 left on the active link 3. *)
Definition coarse_state_with_flux (h : Q) : State Q :=
  mkState (bump coarse_grid 4 h) (<[3%nat := 7%Q]> (add_zeros_at_link coarse_grid)).

(** * Properties *)

(** ** The result monad *)

Lemma bind_Ok_inv {T U : Type} (m : result T) (f : T → result U) (u : U) :
  m ≫= f = Ok u → ∃ t, m = Ok t ∧ f t = Ok u.
Proof. destruct m as [t|e]; simpl; [eauto | discriminate]. Qed.

Ltac inv_bind H :=
  let t := fresh "v" in
  let E := fresh "E" in
  apply bind_Ok_inv in H as (t & E & H).

Lemma mapR_Forall2 {X Y : Type} (f : X → result Y) (l : list X) (ys : list Y) :
  mapR f l = Ok ys → Forall2 (λ x y, f x = Ok y) l ys.
Proof.
  revert ys; induction l as [|x l IH]; intros ys Hm; simpl in Hm.
  - injection Hm as <-. constructor.
  - inv_bind Hm. inv_bind Hm. injection Hm as <-. constructor; auto.
Qed.

Lemma mapR_total {X Y : Type} (f : X → result Y) (l : list X) :
  Forall (λ x, ∃ y, f x = Ok y) l → ∃ ys, mapR f l = Ok ys.
Proof.
  induction 1 as [|x l [y Hy] _ [ys IH]]; simpl.
  - eauto.
  - rewrite Hy; simpl. rewrite IH; simpl. eauto.
Qed.

(** ** NumPy indexing *)

Section NumPyFacts.
Context {T : Type}.
Implicit Types (a : list T) (idx : list nat).

Lemma getitem_Ok a i x : getitem a i = Ok x ↔ a !! i = Some x.
Proof.
  unfold getitem. destruct (a !! i); split; intros E; try discriminate;
    injection E as <-; reflexivity.
Qed.

Lemma take_total a idx :
  Forall (λ i, i < length a) idx → ∃ xs, take a idx = Ok xs.
Proof.
  intros Hb. apply mapR_total. eapply Forall_impl; [exact Hb|].
  intros i Hi. simpl in Hi. destruct (lookup_lt_is_Some_2 a i Hi) as [x Hx].
  exists x. apply getitem_Ok, Hx.
Qed.

Lemma take_length a idx xs : take a idx = Ok xs → length xs = length idx.
Proof. intros Ht. symmetry. eapply Forall2_length, mapR_Forall2, Ht. Qed.

Lemma take_lookup a idx xs k i :
  take a idx = Ok xs → idx !! k = Some i → xs !! k = a !! i.
Proof.
  intros Ht Hk. apply mapR_Forall2 in Ht.
  destruct (Forall2_lookup_l _ _ _ _ _ Ht Hk) as (x & Hx & Hg).
  apply getitem_Ok in Hg. congruence.
Qed.

Lemma put_total a idx (vals : list T) :
  length vals = length idx → Forall (λ i, i < length a) idx →
  ∃ a', put a idx vals = Ok a'.
Proof.
  revert a vals; induction idx as [|i idx IH]; intros a [|v vals] Hl Hb;
    simpl in *; try discriminate; eauto.
  inversion Hb as [|? ? Hi Hb']; subst.
  destruct (decide (i < length a)); [|contradiction].
  apply IH; [lia|]. rewrite length_insert. exact Hb'.
Qed.

Lemma put_length a idx (vals : list T) a' :
  put a idx vals = Ok a' → length a' = length a.
Proof.
  revert a vals; induction idx as [|i idx IH]; intros a [|v vals] Hp;
    simpl in *; try discriminate.
  - injection Hp as <-. reflexivity.
  - destruct (decide (i < length a)); [|discriminate].
    rewrite (IH _ _ Hp), length_insert. reflexivity.
Qed.

(** A cell whose index is not in the index array keeps its content. *)
Lemma put_lookup_notin a idx (vals : list T) a' n :
  put a idx vals = Ok a' → n ∉ idx → a' !! n = a !! n.
Proof.
  revert a vals; induction idx as [|i idx IH]; intros a [|v vals] Hp Hn;
    simpl in *; try discriminate.
  - injection Hp as <-. reflexivity.
  - destruct (decide (i < length a)); [|discriminate].
    apply not_elem_of_cons in Hn as [Hne Hn].
    rewrite (IH _ _ Hp Hn). apply list_lookup_insert_ne. congruence.
Qed.

(** A cell whose index occurs once receives the value at that position. *)
Lemma put_lookup_in a idx (vals : list T) a' k i :
  NoDup idx → put a idx vals = Ok a' → idx !! k = Some i →
  a' !! i = vals !! k ∧ is_Some (vals !! k).
Proof.
  revert a vals k; induction idx as [|j idx IH]; intros a [|v vals] k Hnd Hp Hk;
    simpl in *; try discriminate.
  destruct (decide (j < length a)) as [Hj|]; [|discriminate].
  apply NoDup_cons in Hnd as [Hj' Hnd].
  destruct k as [|k]; simpl in *.
  - injection Hk as ->.
    rewrite (put_lookup_notin _ _ _ _ _ Hp Hj').
    rewrite list_lookup_insert_eq by exact Hj. eauto.
  - eapply IH; eauto.
Qed.
End NumPyFacts.

Lemma elem_of_where_from (i0 : nat) (mask : list bool) (i : nat) :
  i ∈ where_from i0 mask ↔ i0 ≤ i ∧ mask !! (i - i0) = Some true.
Proof.
  revert i0; induction mask as [|b mask IH]; intros i0; simpl.
  - rewrite elem_of_nil. split; [tauto | intros [_ E]; discriminate].
  - assert (Hstep : i ∈ where_from (S i0) mask ↔
                    i0 < i ∧ (b :: mask) !! (i - i0) = Some true).
    { rewrite IH. split; intros [Hle Hm]; (split; [lia|]).
      - replace (i - i0) with (S (i - S i0)) by lia. exact Hm.
      - replace (i - i0) with (S (i - S i0)) in Hm by lia. exact Hm. }
    destruct b.
    + rewrite elem_of_cons, Hstep. split.
      * intros [-> | [Hlt Hm]]; [|split; [lia|exact Hm]].
        split; [lia|]. replace (i0 - i0) with 0 by lia. reflexivity.
      * intros [Hle Hm]. destruct (decide (i = i0)) as [->|Hne]; [left; reflexivity|].
        right. split; [lia | exact Hm].
    + rewrite Hstep. split; intros [Hle Hm]; (split; [|exact Hm]); [lia|].
      destruct (decide (i = i0)) as [->|Hne]; [|lia].
      replace (i0 - i0) with 0 in Hm by lia. discriminate.
Qed.

Lemma elem_of_where (mask : list bool) (i : nat) :
  i ∈ where_ mask ↔ mask !! i = Some true.
Proof.
  unfold where_. rewrite elem_of_where_from, Nat.sub_0_r.
  split; [tauto | intros E; split; [lia | exact E]].
Qed.

Lemma NoDup_where_from (i0 : nat) (mask : list bool) : NoDup (where_from i0 mask).
Proof.
  revert i0; induction mask as [|b mask IH]; intros i0; simpl; [constructor|].
  destruct b; [|apply IH].
  apply NoDup_cons. split; [|apply IH].
  rewrite elem_of_where_from. lia.
Qed.

Lemma NoDup_where (mask : list bool) : NoDup (where_ mask).
Proof. apply NoDup_where_from. Qed.

Lemma where_bound (mask : list bool) :
  Forall (λ i, i < length mask) (where_ mask).
Proof.
  apply Forall_forall. intros i Hi. apply elem_of_where in Hi.
  eapply lookup_lt_Some, Hi.
Qed.

(** ** What one step writes, for every scalar arithmetic *)


Section StepFacts.
Context {A : Type} `{Scalar A}.
Implicit Types (mg : ModelGrid A) (z qs : list A) (s : State A) (l : Link A).


Lemma well_formed_link mg i l :
  well_formed mg = true → links mg !! i = Some l →
  node_at_link_tail l < number_of_nodes mg ∧
  node_at_link_head l < number_of_nodes mg ∧
  node_at_link_tail l ≠ node_at_link_head l.
Proof.
  unfold well_formed. rewrite forallb_forall. intros Hwf Hl.
  apply list_elem_of_lookup_2, list_elem_of_In in Hl.
  specialize (Hwf _ Hl).
  apply andb_prop in Hwf as [Hwf Hne]. apply andb_prop in Hwf as [Ht Hh].
  apply Nat.ltb_lt in Ht, Hh. apply negb_true_iff, Nat.eqb_neq in Hne. auto.
Qed.

Lemma elem_of_core_nodes mg n :
  n ∈ core_nodes mg ↔ status_at_node mg !! n = Some CORE_NODE.
Proof.
  unfold core_nodes. rewrite elem_of_where, list_lookup_fmap.
  destruct (status_at_node mg !! n) as [[]|]; simpl; split; congruence.
Qed.

Lemma core_nodes_status mg n :
  n < number_of_nodes mg → (n ∈ core_nodes mg ↔ is_core (status_of mg n) = true).
Proof.
  intros Hn. rewrite elem_of_core_nodes. unfold status_of.
  destruct (lookup_lt_is_Some_2 _ _ Hn) as [st ->]. simpl.
  destruct st; simpl; split; congruence.
Qed.

Lemma core_nodes_bound mg :
  Forall (λ n, n < number_of_nodes mg) (core_nodes mg).
Proof.
  unfold core_nodes, number_of_nodes.
  rewrite <- (length_fmap is_core). apply where_bound.
Qed.

Lemma elem_of_active_links mg i :
  i ∈ active_links mg ↔ ∃ l, links mg !! i = Some l ∧ link_is_active mg l = true.
Proof.
  unfold active_links. rewrite elem_of_where, list_lookup_fmap.
  destruct (links mg !! i) as [l|]; simpl.
  - split; [intros E; exists l; split; congruence|].
    intros (l' & E & Ha). congruence.
  - split; [discriminate | intros (l' & E & _); discriminate].
Qed.

Lemma active_links_bound mg :
  Forall (λ i, i < number_of_links mg) (active_links mg).
Proof.
  unfold active_links, number_of_links.
  rewrite <- (length_fmap (link_is_active mg)). apply where_bound.
Qed.

Lemma calc_grad_at_link_spec mg z :
  well_formed mg = true → length z = number_of_nodes mg →
  ∃ g, calc_grad_at_link mg z = Ok g ∧ length g = number_of_links mg ∧
       ∀ i l, links mg !! i = Some l → g !! i = Some (grad_value z l).
Proof.
  intros Hwf Hz.
  assert (Hall : ∀ i l, links mg !! i = Some l → grad_at z l = Ok (grad_value z l)).
  { intros i l Hl. destruct (well_formed_link _ _ _ Hwf Hl) as (Ht & Hh & _).
    unfold grad_at, grad_value.
    rewrite <- Hz in Ht, Hh.
    apply list_lookup_lookup_total_lt in Ht, Hh.
    apply getitem_Ok in Ht, Hh. rewrite Hh; simpl. rewrite Ht; simpl. reflexivity. }
  destruct (mapR_total (grad_at z) (links mg)) as [g Hg].
  { apply Forall_forall. intros l Hl. apply list_elem_of_lookup_1 in Hl as [i Hl]. eauto. }
  exists g. split; [exact Hg|]. apply mapR_Forall2 in Hg.
  split; [symmetry; eapply Forall2_length, Hg|].
  intros i l Hl. destruct (Forall2_lookup_l _ _ _ _ _ Hg Hl) as (x & Hx & Hgx).
  rewrite (Hall _ _ Hl) in Hgx. congruence.
Qed.

Lemma calc_flux_div_at_node_spec mg q :
  length q = number_of_links mg →
  ∃ d, calc_flux_div_at_node mg q = Ok d ∧ length d = number_of_nodes mg ∧
       ∀ n, n < number_of_nodes mg → d !! n = Some (flux_div_at mg q n).
Proof.
  intros Hq. unfold calc_flux_div_at_node.
  destruct (decide (length q = number_of_links mg)); [|contradiction].
  eexists; split; [reflexivity|]. split.
  - rewrite length_fmap, length_seq. reflexivity.
  - intros n Hn. rewrite list_lookup_fmap, lookup_seq_lt by exact Hn. reflexivity.
Qed.


Lemma step_spec mg (D dt : A) s :
  well_formed mg = true → fits mg s →
  ∃ s', step mg D dt s = Ok s' ∧ fits mg s' ∧
    (∀ i l, links mg !! i = Some l →
            sediment_flux s' !! i = Some (flux_after mg D s i l)) ∧
    (∀ n, n < number_of_nodes mg →
          topographic__elevation s' !! n =
          Some (elevation_after mg dt s (sediment_flux s') n)).
Proof.
  intros Hwf [Hz Hq]. destruct s as [z qs]; simpl in *.
  unfold step; simpl.
  destruct (calc_grad_at_link_spec mg z Hwf Hz) as (g & -> & Hgl & Hg); simpl.
  destruct (take_total g (active_links mg)) as [ga Hga].
  { rewrite Hgl. apply active_links_bound. }
  rewrite Hga; simpl.
  destruct (put_total qs (active_links mg) (map (fmul (fneg D)) ga)) as [qs' Hqs'].
  { rewrite length_fmap. eapply take_length, Hga. }
  { rewrite Hq. apply active_links_bound. }
  rewrite Hqs'; simpl.
  assert (Hql : length qs' = number_of_links mg).
  { rewrite (put_length _ _ _ _ Hqs'). exact Hq. }
  destruct (calc_flux_div_at_node_spec mg qs' Hql) as (d & -> & Hdl & Hd); simpl.
  destruct (take_total z (core_nodes mg)) as [zc Hzc].
  { rewrite Hz. apply core_nodes_bound. }
  rewrite Hzc; simpl.
  destruct (take_total (map fneg d) (core_nodes mg)) as [dc Hdc].
  { rewrite length_fmap, Hdl. apply core_nodes_bound. }
  rewrite Hdc; simpl.
  destruct (put_total z (core_nodes mg)
              (zip_with fadd zc (map (λ v, fmul v dt) dc))) as [z' Hz'].
  { rewrite length_zip_with, length_fmap,
      (take_length _ _ _ Hzc), (take_length _ _ _ Hdc). lia. }
  { rewrite Hz. apply core_nodes_bound. }
  rewrite Hz'; simpl.
  eexists; split; [reflexivity|]. simpl.
  split.
  { unfold fits; simpl. rewrite (put_length _ _ _ _ Hz'). auto. }
  split.
  - intros i l Hl. unfold flux_after; simpl.
    destruct (link_is_active mg l) eqn:Ha.
    + assert (Hi : i ∈ active_links mg) by (apply elem_of_active_links; eauto).
      apply list_elem_of_lookup_1 in Hi as [k Hk].
      destruct (put_lookup_in _ _ _ _ _ _ (NoDup_where _) Hqs' Hk) as [-> _].
      rewrite list_lookup_fmap, (take_lookup _ _ _ _ _ Hga Hk), (Hg _ _ Hl).
      reflexivity.
    + rewrite (put_lookup_notin _ _ _ _ i Hqs').
      * apply list_lookup_lookup_total_lt. rewrite Hq.
        eapply lookup_lt_Some, Hl.
      * rewrite elem_of_active_links. intros (l' & E & Ha'). congruence.
  - intros n Hn. unfold elevation_after; simpl.
    destruct (is_core (status_of mg n)) eqn:Hc.
    + apply core_nodes_status in Hc; [|exact Hn].
      apply list_elem_of_lookup_1 in Hc as [k Hk].
      destruct (put_lookup_in _ _ _ _ _ _ (NoDup_where _) Hz' Hk) as [-> _].
      rewrite lookup_zip_with, (take_lookup _ _ _ _ _ Hzc Hk).
      rewrite list_lookup_fmap, (take_lookup _ _ _ _ _ Hdc Hk).
      rewrite list_lookup_fmap, (Hd _ Hn).
      rewrite (list_lookup_lookup_total_lt z n) by lia. reflexivity.
    + rewrite (put_lookup_notin _ _ _ _ n Hz').
      * apply list_lookup_lookup_total_lt. lia.
      * rewrite core_nodes_status by exact Hn. congruence.
Qed.
End StepFacts.

(** ** Totality and frame, for every scalar arithmetic *)

Section Structural.
Context {A : Type} `{Scalar A}.
Implicit Types (mg : ModelGrid A) (z qs : list A) (s : State A) (l : Link A).

Lemma elevation_after_boundary mg dt s qs' n :
  status_of mg n ≠ CORE_NODE →
  elevation_after mg dt s qs' n = topographic__elevation s !!! n.
Proof.
  intros Hn. unfold elevation_after.
  destruct (status_of mg n); simpl; [contradiction | reflexivity | reflexivity].
Qed.

Lemma step_frame mg (D dt : A) s s' n :
  well_formed mg = true → fits mg s → step mg D dt s = Ok s' →
  status_of mg n ≠ CORE_NODE →
  topographic__elevation s' !! n = topographic__elevation s !! n.
Proof.
  intros Hwf Hfit Hs Hn.
  destruct (step_spec mg D dt s Hwf Hfit) as (s1 & Hs1 & [Hz1 _] & _ & Hel).
  rewrite Hs in Hs1. injection Hs1 as <-.
  destruct Hfit as [Hz _].
  destruct (decide (n < number_of_nodes mg)) as [Hlt|Hge].
  - rewrite (Hel n Hlt), elevation_after_boundary by exact Hn.
    symmetry. apply list_lookup_lookup_total_lt. lia.
  - rewrite !lookup_ge_None_2 by lia. reflexivity.
Qed.

(** C8.  One invocation of the stepper completes normally on every
    elevation array with one cell per node (and flux array with one cell per
    link), for every diffusivity and every time step, whatever their sign,
    and returns arrays of the same sizes. *)
Theorem step_never_raises mg (D dt : A) s :
  well_formed mg = true → fits mg s →
  ∃ s', step mg D dt s = Ok s' ∧ fits mg s'.
Proof.
  intros Hwf Hfit.
  destruct (step_spec mg D dt s Hwf Hfit) as (s' & Hs & Hfit' & _).
  eauto.
Qed.

(** C2.  After any number of passes through the loop, from any elevation
    field and for any diffusivity and time step, every node that is not a
    core node (closed or fixed-value) holds the value it started with. *)
Theorem boundary_nodes_untouched (k : nat) mg (D dt : A) s :
  well_formed mg = true → fits mg s →
  ∃ s', run k mg D dt s = Ok s' ∧
    ∀ n, status_of mg n ≠ CORE_NODE →
         topographic__elevation s' !! n = topographic__elevation s !! n.
Proof.
  intros Hwf. revert s. induction k as [|k IH]; intros s Hfit; simpl.
  - exists s. split; [reflexivity | auto].
  - destruct (step_spec mg D dt s Hwf Hfit) as (s1 & Hs1 & Hfit1 & _).
    rewrite Hs1; simpl.
    destruct (IH s1 Hfit1) as (s' & Hrun & Hsame).
    exists s'. split; [exact Hrun|].
    intros n Hn. rewrite (Hsame n Hn).
    eapply step_frame; eauto.
Qed.

Lemma holds_along_run (k : nat) (P : nat → State A → bool) (i : nat) mg (D dt : A) s :
  holds_along k P i mg D dt s = true →
  ∀ j, j ≤ k → ∃ s', run j mg D dt s = Ok s' ∧ P (i + j) s' = true.
Proof.
  revert i s. induction k as [|k IH]; intros i s Hk j Hj;
    cbn [holds_along] in Hk; apply andb_prop in Hk as [HP Hk].
  - assert (j = 0) as -> by lia. exists s. rewrite Nat.add_0_r. auto.
  - destruct j as [|j].
    + exists s. rewrite Nat.add_0_r. auto.
    + cbn [run]. destruct (step mg D dt s) as [s1|e]; [|discriminate]. simpl.
      destruct (IH (S i) s1 Hk j ltac:(lia)) as (s' & Hrun & HP').
      exists s'. split; [exact Hrun|].
      replace (i + S j) with (S i + j) by lia. exact HP'.
Qed.

(** *** Every raster grid is well formed *)

Lemma raster_links_spec (nrows ncols : nat) (dx : A) l :
  l ∈ raster_links nrows ncols dx →
  ∃ r c, r < nrows ∧ c < ncols ∧
    node_at_link_tail l = r * ncols + c ∧
    length_of_link l = dx ∧ width_of_face l = dx ∧
    ((S c < ncols ∧ node_at_link_head l = r * ncols + c + 1) ∨
     (S r < nrows ∧ node_at_link_head l = (r + 1) * ncols + c)).
Proof.
  unfold raster_links. rewrite list_elem_of_In, in_flat_map.
  intros (r & Hr & Hl). apply in_seq in Hr. apply in_app_or in Hl as [Hl|Hl].
  - unfold horizontal_links in Hl. apply in_map_iff in Hl as (c & <- & Hc).
    apply in_seq in Hc. exists r, c. simpl. repeat split; lia.
  - destruct (S r <? nrows) eqn:Hlt; [|destruct Hl]. apply Nat.ltb_lt in Hlt.
    unfold vertical_links in Hl. apply in_map_iff in Hl as (c & <- & Hc).
    apply in_seq in Hc. exists r, c. simpl. repeat split; lia.
Qed.

Lemma RasterModelGrid_well_formed (nrows ncols : nat) (dx : A) :
  well_formed (RasterModelGrid nrows ncols dx) = true.
Proof.
  unfold well_formed. apply forallb_forall. intros l Hl.
  apply list_elem_of_In in Hl.
  destruct (raster_links_spec nrows ncols dx l Hl) as (r & c & Hr & Hc & Ht & _ & _ & Hh).
  unfold number_of_nodes. cbn [status_at_node RasterModelGrid].
  rewrite length_fmap, length_seq.
  apply andb_true_intro. split; [apply andb_true_intro; split|].
  - apply Nat.ltb_lt. nia.
  - apply Nat.ltb_lt. destruct Hh as [[? ->]|[? ->]]; nia.
  - apply negb_true_iff, Nat.eqb_neq. destruct Hh as [[? ->]|[? ->]]; nia.
Qed.

Lemma set_closed_boundaries_well_formed (nrows ncols : nat) (right top left bottom : bool) mg :
  well_formed (set_closed_boundaries_at_grid_edges nrows ncols right top left bottom mg)
  = well_formed mg.
Proof.
  unfold well_formed, number_of_nodes. cbn [set_closed_boundaries_at_grid_edges links status_at_node].
  rewrite length_imap. reflexivity.
Qed.

(** *** A node of a raster has at most four links *)

Lemma degree_app (n : nat) (ls ms : list (Link A)) :
  degree n (ls ++ ms) = degree n ls + degree n ms.
Proof. induction ls as [|l ls IH]; cbn [degree app]; [reflexivity | lia]. Qed.

Lemma far_ends_length mg (n : nat) (ls : list (Link A)) :
  length (far_ends mg n ls) ≤ degree n ls.
Proof.
  induction ls as [|l ls IH]; cbn [far_ends flat_map degree length]; [lia|].
  fold (far_ends mg n ls). rewrite length_app.
  destruct (link_is_active mg l);
    repeat destruct (decide _); cbn [length]; try lia; tauto.
Qed.

(** Links built from a duplicate-free list of indices, of which only those
    in [cand] can touch [n]. *)
Lemma degree_map_le (n : nat) (g : nat → Link A) (cs cand : list nat) :
  NoDup cs →
  (∀ c, c ∈ cs →
        node_at_link_tail (g c) = n ∨ node_at_link_head (g c) = n → c ∈ cand) →
  degree n (map g cs) ≤ length cand.
Proof.
  intros Hnd Hc.
  assert (E : degree n (map g cs) =
              length (filter (λ c, node_at_link_tail (g c) = n ∨
                                   node_at_link_head (g c) = n) cs)).
  { clear. induction cs as [|c cs IH]; [reflexivity|].
    cbn [map degree]. rewrite filter_cons.
    destruct (decide _); cbn [length]; lia. }
  rewrite E. apply submseteq_length, NoDup_submseteq.
  - apply NoDup_filter, Hnd.
  - intros c Hin. apply list_elem_of_filter in Hin as [Hinc Hin]. eauto.
Qed.

Lemma count_le_one (f : nat → nat) (x : nat) (rs : list nat) :
  (∀ r r', f r = f r' → r = r') → NoDup rs →
  list_sum (map (λ r, if decide (f r = x) then 1 else 0) rs) ≤ 1.
Proof.
  intros Hinj. induction 1 as [|r rs Hr Hnd IH]; simpl; [lia|].
  destruct (decide (f r = x)) as [Hx|]; [|lia].
  assert (Hz : list_sum (map (λ r0, if decide (f r0 = x) then 1 else 0) rs) = 0).
  { clear IH Hnd. induction rs as [|r' rs IH]; [reflexivity|]. simpl.
    apply not_elem_of_cons in Hr as [Hne Hr].
    destruct (decide (f r' = x)) as [Hx'|]; [|apply IH, Hr].
    exfalso. apply Hne, Hinj. congruence. }
  lia.
Qed.

Lemma degree_flat_map_le (n : nat) (G : nat → list (Link A)) (d : nat → nat)
    (rs : list nat) :
  (∀ r, r ∈ rs → degree n (G r) ≤ d r) →
  degree n (flat_map G rs) ≤ list_sum (map d rs).
Proof.
  induction rs as [|r rs IH]; intros Hd; simpl; [lia|].
  rewrite degree_app.
  specialize (IH ltac:(intros; apply Hd; right; assumption)).
  specialize (Hd r ltac:(left)). lia.
Qed.

Lemma raster_degree (nrows ncols : nat) (dx : A) (n : nat) :
  degree n (raster_links nrows ncols dx) ≤ 4.
Proof.
  set (q := n / ncols). set (c0 := n mod ncols).
  assert (Hn : 0 < ncols → n = ncols * q + c0 ∧ c0 < ncols).
  { intros Hpos. split; [apply Nat.div_mod; lia | apply Nat.mod_upper_bound; lia]. }
  assert (Huniq : ∀ r c, c < ncols → r * ncols + c = n → r = q ∧ c = c0).
  { intros r c Hc E. destruct (Hn ltac:(lia)) as [En Hc0].
    apply (Nat.div_mod_unique ncols); lia. }
  unfold raster_links.
  etransitivity.
  { apply (degree_flat_map_le n _
             (λ r, 3 * (if decide (r = q) then 1 else 0) +
                   (if decide (S r = q) then 1 else 0))).
    intros r _. rewrite degree_app.
    assert (Hh : degree n (horizontal_links ncols dx r)
                 ≤ 2 * (if decide (r = q) then 1 else 0)).
    { unfold horizontal_links.
      etransitivity;
        [apply (degree_map_le n _ _ (if decide (r = q) then [c0; c0 - 1] else []));
         [apply NoDup_seq|]
        |destruct (decide (r = q)); cbn [length]; lia].
      intros c Hc Hinc. apply elem_of_seq in Hc. cbn in Hinc.
      destruct Hinc as [E|E].
      - destruct (Huniq r c ltac:(lia) E) as [Er ->].
        destruct (decide (r = q)); [left|contradiction].
      - destruct (Huniq r (c + 1) ltac:(lia) ltac:(lia)) as [Er Ec].
        destruct (decide (r = q)); [|contradiction].
        apply list_elem_of_In. simpl. lia. }
    assert (Hv : degree n (if S r <? nrows then vertical_links ncols dx r else [])
                 ≤ (if decide (r = q) then 1 else 0) + (if decide (S r = q) then 1 else 0)).
    { destruct (S r <? nrows); [|cbn; lia]. unfold vertical_links.
      etransitivity;
        [apply (degree_map_le n _ _
                  (if decide (r = q ∨ S r = q) then [c0] else []));
         [apply NoDup_seq|]
        |repeat destruct (decide _); cbn [length]; lia].
      intros c Hc Hinc. apply elem_of_seq in Hc. cbn in Hinc.
      destruct Hinc as [E|E].
      - destruct (Huniq r c ltac:(lia) E) as [Er ->].
        destruct (decide (r = q ∨ S r = q)) as [_|Hno]; [left | exfalso; apply Hno; lia].
      - destruct (Huniq (r + 1) c ltac:(lia) E) as [Er ->].
        destruct (decide (r = q ∨ S r = q)) as [_|Hno]; [left | exfalso; apply Hno; lia]. }
    lia. }
  assert (H1 := count_le_one (λ r, r) q (seq 0 nrows) ltac:(auto) (NoDup_seq _ _)).
  assert (H2 := count_le_one S q (seq 0 nrows) ltac:(intros; lia) (NoDup_seq _ _)).
  cbv beta in H1.
  assert (E : ∀ rs,
    list_sum (map (λ r, 3 * (if decide (r = q) then 1 else 0) +
                        (if decide (S r = q) then 1 else 0)) rs) =
    3 * list_sum (map (λ r, if decide (r = q) then 1 else 0) rs) +
    list_sum (map (λ r, if decide (S r = q) then 1 else 0) rs)).
  { induction rs as [|r rs IH]; simpl; [reflexivity|]. simpl in IH. lia. }
  rewrite E. lia.
Qed.

Lemma flux_clean_add_zeros mg : flux_clean mg (add_zeros_at_link mg).
Proof.
  intros i l Hl _. unfold add_zeros_at_link.
  apply list_lookup_total_correct, lookup_replicate_2.
  eapply lookup_lt_Some, Hl.
Qed.

Lemma flux_clean_step mg (D dt : A) s s' :
  well_formed mg = true → fits mg s → step mg D dt s = Ok s' →
  flux_clean mg (sediment_flux s) → flux_clean mg (sediment_flux s').
Proof.
  intros Hwf Hfit Hs Hcl i l Hl Ha.
  destruct (step_spec mg D dt s Hwf Hfit) as (s1 & Hs1 & _ & Hfl & _).
  rewrite Hs in Hs1. injection Hs1 as <-.
  apply list_lookup_total_correct. rewrite (Hfl _ _ Hl).
  unfold flux_after. rewrite Ha. f_equal. eapply Hcl; eauto.
Qed.

(** Every state the loop reaches from arrays made by [add_zeros], with any
    elevations written into the node array, has its flux array zero on the
    inactive links. *)
Lemma run_flux_clean (k : nat) mg (D dt : A) z :
  well_formed mg = true → length z = number_of_nodes mg →
  ∃ s', run k mg D dt (mkState z (add_zeros_at_link mg)) = Ok s' ∧
        fits mg s' ∧ flux_clean mg (sediment_flux s').
Proof.
  intros Hwf Hz.
  assert (Hfit : fits mg (mkState z (add_zeros_at_link mg))).
  { split; [exact Hz|]. apply length_replicate. }
  assert (Hcl : flux_clean mg (sediment_flux (mkState z (add_zeros_at_link mg))))
    by apply flux_clean_add_zeros.
  revert Hfit Hcl. generalize (mkState z (add_zeros_at_link mg)).
  induction k as [|k IH]; intros s Hfit Hcl; simpl.
  - exists s. auto.
  - destruct (step_spec mg D dt s Hwf Hfit) as (s1 & Hs1 & Hfit1 & _).
    rewrite Hs1; simpl. apply IH; [exact Hfit1|].
    exact (flux_clean_step mg D dt s s1 Hwf Hfit Hs1 Hcl).
Qed.

(** C9.  In a state of the program the flux array is zero on every inactive
    link: it comes from [add_zeros] and the loop assigns the active links
    only ([flux_clean_add_zeros], [flux_clean_step], [run_flux_clean]).
    From such a state a step leaves on every link a flux that is a function
    of the elevation field the step is applied to: minus the diffusivity
    times the gradient on an active link, zero on an inactive link.  Hence
    two states of the program with the same elevations hold the same fluxes
    after the step, whatever fluxes they held before. *)
Theorem flux_is_function_of_elevation mg (D dt : A) s :
  well_formed mg = true → fits mg s → flux_clean mg (sediment_flux s) →
  ∃ s', step mg D dt s = Ok s' ∧
    (∀ i l, links mg !! i = Some l →
       sediment_flux s' !! i =
       Some (if link_is_active mg l
             then fmul (fneg D) (grad_value (topographic__elevation s) l)
             else fzero)) ∧
    (∀ s2, fits mg s2 → flux_clean mg (sediment_flux s2) →
       topographic__elevation s2 = topographic__elevation s →
       ∃ s2', step mg D dt s2 = Ok s2' ∧ sediment_flux s2' = sediment_flux s').
Proof.
  intros Hwf Hfit Hcl.
  assert (Hform : ∀ t, fits mg t → flux_clean mg (sediment_flux t) →
            ∃ t', step mg D dt t = Ok t' ∧ fits mg t' ∧
              ∀ i l, links mg !! i = Some l →
                sediment_flux t' !! i =
                Some (if link_is_active mg l
                      then fmul (fneg D) (grad_value (topographic__elevation t) l)
                      else fzero)).
  { intros t Ht Hc. destruct (step_spec mg D dt t Hwf Ht) as (t' & Hs & Hfit' & Hfl & _).
    exists t'. split; [exact Hs|]. split; [exact Hfit'|].
    intros i l Hl. rewrite (Hfl i l Hl). unfold flux_after.
    destruct (link_is_active mg l) eqn:Ha; [reflexivity|].
    rewrite (Hc i l Hl Ha). reflexivity. }
  destruct (Hform s Hfit Hcl) as (s' & Hs & Hfit' & Hfl).
  exists s'. split; [exact Hs|]. split; [exact Hfl|].
  intros s2 Hfit2 Hcl2 Hz.
  destruct (Hform s2 Hfit2 Hcl2) as (s2' & Hs2 & Hfit2' & Hfl2).
  exists s2'. split; [exact Hs2|]. apply list_eq. intros i.
  destruct (links mg !! i) as [l|] eqn:Hl.
  - rewrite (Hfl i l Hl), (Hfl2 i l Hl), Hz. reflexivity.
  - apply lookup_ge_None in Hl.
    destruct Hfit' as [_ Hq], Hfit2' as [_ Hq2]. unfold number_of_links in *.
    rewrite !(proj2 (lookup_ge_None _ _)) by lia. reflexivity.
Qed.
End Structural.

(** C8 at the specification's scenario, with a negative diffusivity and a
    negative time step. *)
Lemma step_never_raises_witness :
  well_formed scenario_grid = true ∧ fits scenario_grid (scenario_state 12) ∧
  ∃ s', step scenario_grid (-1 # 10)%Q (-2)%Q (scenario_state 12) = Ok s' ∧
        fits scenario_grid s'.
Proof.
  split; [reflexivity|]. split; [split; reflexivity|].
  apply (step_never_raises scenario_grid (-1 # 10)%Q (-2)%Q (scenario_state 12));
    [reflexivity | split; reflexivity].
Defined.

(** C2 at the tutorial's grid: 25 passes. *)
Lemma boundary_nodes_untouched_witness :
  well_formed tutorial_grid = true ∧
  fits tutorial_grid (mkState (bump tutorial_grid 500 10%Q) (add_zeros_at_link tutorial_grid)) ∧
  ∃ s', run 25 tutorial_grid (1 # 100)%Q 2000%Q
          (mkState (bump tutorial_grid 500 10%Q) (add_zeros_at_link tutorial_grid)) = Ok s' ∧
    ∀ n, status_of tutorial_grid n ≠ CORE_NODE →
         topographic__elevation s' !! n = bump tutorial_grid 500 10%Q !! n.
Proof.
  split; [vm_compute; reflexivity|]. split; [split; vm_compute; reflexivity|].
  apply (boundary_nodes_untouched 25 tutorial_grid (1 # 100)%Q 2000%Q
           (mkState (bump tutorial_grid 500 10%Q) (add_zeros_at_link tutorial_grid)));
    [vm_compute; reflexivity | split; vm_compute; reflexivity].
Defined.

(** ** The step in exact arithmetic *)

Section ExactFacts.
Local Open Scope Q_scope.
Implicit Types (mg : ModelGrid Q) (z qs : list Q) (s : State Q) (l : Link Q).

Lemma fadd_Q (x y : Q) : fadd x y == x + y.
Proof. apply Qplus'_correct. Qed.

Lemma fsub_Q (x y : Q) : fsub x y == x - y.
Proof. apply Qminus'_correct. Qed.

Lemma fmul_Q (x y : Q) : fmul x y == x * y.
Proof. apply Qmult'_correct. Qed.

Lemma fdiv_Q (x y : Q) : fdiv x y == x / y.
Proof. apply Qred_correct. Qed.

Lemma fneg_Q (x : Q) : fneg x == - x.
Proof. apply Qred_correct. Qed.

Lemma grad_value_Q z l : grad_value z l == gradient z l.
Proof. unfold grad_value, gradient. rewrite fdiv_Q, fsub_Q. reflexivity. Qed.

Lemma signed_sum_ext (n : nat) (F G : Link Q → Q) (ls : list (Link Q)) :
  (∀ l, l ∈ ls → F l == G l) → signed_sum n F ls == signed_sum n G ls.
Proof.
  induction ls as [|l ls IH]; intros HFG; cbn [signed_sum]; [reflexivity|].
  rewrite IH by (intros; apply HFG; right; assumption).
  assert (Hl : F l == G l) by (apply HFG; left).
  repeat destruct (decide _); rewrite ?Hl; reflexivity.
Qed.

Lemma net_flux_Q (n : nat) (F : Link Q → Q) (ls : list (Link Q)) (q : list Q) :
  Forall2 (λ l x, x == F l) ls q →
  net_flux n ls q == signed_sum n (λ l, F l * width_of_face l) ls.
Proof.
  induction 1 as [|l x ls q Hx _ IH]; cbn [net_flux signed_sum]; [reflexivity|].
  destruct (decide (node_at_link_tail l = n)).
  - rewrite fadd_Q, fmul_Q, IH, Hx. ring.
  - destruct (decide (node_at_link_head l = n)).
    + rewrite fsub_Q, fmul_Q, IH, Hx. ring.
    + rewrite IH. ring.
Qed.

(** In a state of the program, one step succeeds, leaves a state of the
    program, and stores [diffused] at every node. *)
Lemma step_closed_form mg (D dt : Q) s :
  well_formed mg = true → fits mg s → flux_clean mg (sediment_flux s) →
  ∃ s', step mg D dt s = Ok s' ∧ fits mg s' ∧ flux_clean mg (sediment_flux s') ∧
    (∀ i l, links mg !! i = Some l →
       sediment_flux s' !!! i == unit_flux mg D (topographic__elevation s) l) ∧
    (∀ n, (n < number_of_nodes mg)%nat →
       topographic__elevation s' !!! n == diffused mg D dt (topographic__elevation s) n).
Proof.
  intros Hwf Hfit Hcl.
  destruct (step_spec mg D dt s Hwf Hfit) as (s' & Hs & Hfit' & Hfl & Hel).
  exists s'. split; [exact Hs|]. split; [exact Hfit'|].
  split; [exact (flux_clean_step mg D dt s s' Hwf Hfit Hs Hcl)|].
  assert (Hq : ∀ i l, links mg !! i = Some l →
             sediment_flux s' !!! i == unit_flux mg D (topographic__elevation s) l).
  { intros i l Hl. rewrite (list_lookup_total_correct _ _ _ (Hfl i l Hl)).
    unfold flux_after, unit_flux. destruct (link_is_active mg l) eqn:Ha.
    - rewrite fmul_Q, fneg_Q, grad_value_Q. reflexivity.
    - rewrite (Hcl i l Hl Ha). reflexivity. }
  split; [exact Hq|].
  intros n Hn. rewrite (list_lookup_total_correct _ _ _ (Hel n Hn)).
  unfold elevation_after, diffused.
  destruct (is_core (status_of mg n)); [|reflexivity].
  rewrite fadd_Q, fmul_Q, fneg_Q.
  assert (Hdiv : flux_div_at mg (sediment_flux s') n ==
                 divergence mg D (topographic__elevation s) n).
  { unfold flux_div_at, divergence.
    destruct (area_of_cell mg !! n) as [[a|]|]; try reflexivity.
    rewrite fdiv_Q. apply Qdiv_comp; [|reflexivity].
    apply net_flux_Q. apply Forall2_same_length_lookup_2.
    - destruct Hfit' as [_ Hlen]. unfold number_of_links in Hlen. lia.
    - intros i l x Hl Hx. rewrite <- (list_lookup_total_correct _ _ _ Hx).
      apply Hq, Hl. }
  rewrite Hdiv. reflexivity.
Qed.
(** C1, as amended.  In a state of the program one step stores, on every
    link, minus the diffusivity times the gradient (head minus tail over the
    link length) if the link is active and zero if it is not; and at every
    node the old value plus minus the divergence times [dt] if the node is a
    core node, the old value otherwise.  The divergence at a node that owns
    a cell is the signed sum (outflux positive) of these fluxes, each times
    the width of the face it crosses, divided by the area of the cell. *)
Theorem step_computes_flux_and_update mg (D dt : Q) s :
  well_formed mg = true → fits mg s → flux_clean mg (sediment_flux s) →
  ∃ s', step mg D dt s = Ok s' ∧
    (∀ i l, links mg !! i = Some l →
       sediment_flux s' !!! i ==
       if link_is_active mg l
       then - D * ((topographic__elevation s !!! node_at_link_head l -
                    topographic__elevation s !!! node_at_link_tail l)
                   / length_of_link l)
       else 0) ∧
    (∀ n, (n < number_of_nodes mg)%nat →
       topographic__elevation s' !!! n ==
       if is_core (status_of mg n)
       then topographic__elevation s !!! n +
            - divergence mg D (topographic__elevation s) n * dt
       else topographic__elevation s !!! n) ∧
    (∀ n a, area_of_cell mg !! n = Some (Some a) →
       divergence mg D (topographic__elevation s) n ==
       signed_sum n (λ l, unit_flux mg D (topographic__elevation s) l * width_of_face l)
                  (links mg) / a).
Proof.
  intros Hwf Hfit Hcl.
  destruct (step_closed_form mg D dt s Hwf Hfit Hcl) as (s' & Hs & _ & _ & Hq & Hz).
  exists s'. split; [exact Hs|]. split; [|split].
  - intros i l Hl. rewrite (Hq i l Hl). unfold unit_flux, gradient.
    destruct (link_is_active mg l); reflexivity.
  - intros n Hn. rewrite (Hz n Hn). unfold diffused.
    destruct (is_core (status_of mg n)); reflexivity.
  - intros n a Ha. unfold divergence. rewrite Ha. reflexivity.
Qed.

Lemma signed_sum_zero (n : nat) (F : Link Q → Q) (ls : list (Link Q)) :
  (∀ l, l ∈ ls → F l == 0) → signed_sum n F ls == 0.
Proof.
  induction ls as [|l ls IH]; intros HF; cbn [signed_sum]; [reflexivity|].
  rewrite IH by (intros; apply HF; right; assumption).
  assert (Hl : F l == 0) by (apply HF; left).
  repeat destruct (decide _); rewrite ?Hl; ring.
Qed.

Lemma well_formed_elem mg l :
  well_formed mg = true → l ∈ links mg →
  (node_at_link_tail l < number_of_nodes mg)%nat ∧
  (node_at_link_head l < number_of_nodes mg)%nat ∧
  node_at_link_tail l ≠ node_at_link_head l.
Proof.
  intros Hwf Hl. apply list_elem_of_lookup_1 in Hl as [i Hl].
  eapply well_formed_link; eauto.
Qed.

(** C4.  In a state of the program whose elevation field has the same value
    at every node, one step leaves every node at its value, for every
    diffusivity and every time step. *)
Theorem uniform_field_is_fixed_point mg (D dt c : Q) s :
  well_formed mg = true → fits mg s → flux_clean mg (sediment_flux s) →
  (∀ n, (n < number_of_nodes mg)%nat → topographic__elevation s !!! n == c) →
  ∃ s', step mg D dt s = Ok s' ∧
    ∀ n, (n < number_of_nodes mg)%nat →
      topographic__elevation s' !!! n == topographic__elevation s !!! n.
Proof.
  intros Hwf Hfit Hcl Hc.
  destruct (step_closed_form mg D dt s Hwf Hfit Hcl) as (s' & Hs & _ & _ & _ & Hz).
  exists s'. split; [exact Hs|]. intros n Hn. rewrite (Hz n Hn).
  unfold diffused. destruct (is_core (status_of mg n)); [|reflexivity].
  assert (Hdiv : divergence mg D (topographic__elevation s) n == 0).
  { unfold divergence. destruct (area_of_cell mg !! n) as [[a|]|]; try reflexivity.
    rewrite signed_sum_zero; [unfold Qdiv; ring|].
    intros l Hl. destruct (well_formed_elem mg l Hwf Hl) as (Ht & Hh & _).
    unfold unit_flux, gradient.
    destruct (link_is_active mg l); [|reflexivity].
    rewrite (Hc _ Ht), (Hc _ Hh). unfold Qdiv; ring. }
  rewrite Hdiv. ring.
Qed.

Lemma sum_at_ext (f g : nat → Q) (ns : list nat) :
  (∀ n, n ∈ ns → f n == g n) → sum_at f ns == sum_at g ns.
Proof.
  induction ns as [|n ns IH]; intros Hfg; cbn [sum_at]; [reflexivity|].
  fold (sum_at f ns) (sum_at g ns).
  rewrite IH by (intros; apply Hfg; right; assumption).
  rewrite (Hfg n) by (left; reflexivity). reflexivity.
Qed.

Lemma sum_at_plus (f g : nat → Q) (ns : list nat) :
  sum_at (λ n, f n + g n) ns == sum_at f ns + sum_at g ns.
Proof.
  induction ns as [|n ns IH]; cbn [sum_at]; [ring|].
  fold (sum_at f ns) (sum_at g ns) (sum_at (λ n, f n + g n) ns).
  rewrite IH. ring.
Qed.

Lemma sum_at_scale (c : Q) (f : nat → Q) (ns : list nat) :
  sum_at (λ n, c * f n) ns == c * sum_at f ns.
Proof.
  induction ns as [|n ns IH]; cbn [sum_at]; [ring|].
  fold (sum_at f ns) (sum_at (λ n, c * f n) ns).
  rewrite IH. ring.
Qed.

Lemma sum_at_zero (ns : list nat) : sum_at (λ _, 0) ns == 0.
Proof.
  induction ns as [|n ns IH]; cbn [sum_at]; [reflexivity|].
  fold (sum_at (λ _, 0) ns). rewrite IH. ring.
Qed.

(** Over a duplicate-free list of nodes, a link contributes its quantity
    once for its tail and minus once for its head. *)
Lemma sum_at_contribution (g : Q) (t h : nat) (ns : list nat) :
  t ≠ h → NoDup ns →
  sum_at (λ n, if decide (t = n) then g else if decide (h = n) then - g else 0) ns ==
  (if decide (t ∈ ns) then g else 0) - (if decide (h ∈ ns) then g else 0).
Proof.
  intros Hth. induction 1 as [|n ns Hn _ IH]; cbn [sum_at].
  - repeat destruct (decide _); try (exfalso; eapply not_elem_of_nil; eassumption). ring.
  - match goal with |- _ + ?r == _ =>
      change r with (sum_at (λ n, if decide (t = n) then g
                               else if decide (h = n) then - g else 0) ns) end.
    rewrite IH.
    destruct (decide (t = n)) as [->|Htn].
    + destruct (decide (n ∈ ns)); [contradiction|].
      destruct (decide (n ∈ n :: ns)) as [_|Hc]; [|exfalso; apply Hc; left].
      destruct (decide (h ∈ ns)) as [Hh|Hh];
        (destruct (decide (h ∈ n :: ns)) as [Hh'|Hh'];
         [|try (exfalso; apply Hh'; right; exact Hh)]); try ring.
      apply elem_of_cons in Hh' as [->|Hh']; [congruence|contradiction].
    + destruct (decide (h = n)) as [->|Hhn].
      * destruct (decide (n ∈ ns)); [contradiction|].
        destruct (decide (n ∈ n :: ns)) as [_|Hc]; [|exfalso; apply Hc; left].
        destruct (decide (t ∈ ns)) as [Ht|Ht];
          (destruct (decide (t ∈ n :: ns)) as [Ht'|Ht'];
           [|try (exfalso; apply Ht'; right; exact Ht)]); try ring.
        apply elem_of_cons in Ht' as [->|Ht']; [congruence|contradiction].
      * assert (Et : ∀ x, x ≠ n → (x ∈ n :: ns ↔ x ∈ ns)).
        { intros x Hx. rewrite elem_of_cons. tauto. }
        destruct (decide (t ∈ ns)) as [Ht|Ht];
          destruct (decide (t ∈ n :: ns)) as [Ht'|Ht'];
          destruct (decide (h ∈ ns)) as [Hh|Hh];
          destruct (decide (h ∈ n :: ns)) as [Hh'|Hh'];
          try ring; exfalso;
          rewrite ?(Et t Htn), ?(Et h Hhn) in *; tauto.
Qed.

(** Summed over a duplicate-free list of nodes, the signed sums cancel when
    every link that carries something has both ends in the list. *)
Lemma sum_at_signed_sum_cancel (F : Link Q → Q) (ls : list (Link Q)) (ns : list nat) :
  NoDup ns →
  (∀ l, l ∈ ls → node_at_link_tail l ≠ node_at_link_head l) →
  (∀ l, l ∈ ls → F l == 0 ∨ (node_at_link_tail l ∈ ns ∧ node_at_link_head l ∈ ns)) →
  sum_at (λ n, signed_sum n F ls) ns == 0.
Proof.
  intros Hnd. induction ls as [|l ls IH]; intros Hne HF; cbn [signed_sum].
  - apply sum_at_zero.
  - rewrite sum_at_plus, IH; [|intros; apply Hne; right; assumption
                               |intros; apply HF; right; assumption].
    rewrite (sum_at_contribution (F l) _ _ ns (Hne l ltac:(left)) Hnd).
    destruct (HF l ltac:(left)) as [Hz|[Ht Hh]].
    + repeat destruct (decide _); rewrite ?Hz; ring.
    + destruct (decide (node_at_link_tail l ∈ ns)); [|contradiction].
      destruct (decide (node_at_link_head l ∈ ns)); [|contradiction]. ring.
Qed.
Lemma uniform_spacing_link mg (dx : Q) l :
  uniform_spacing mg dx = true → l ∈ links mg →
  length_of_link l == dx ∧ width_of_face l == dx.
Proof.
  unfold uniform_spacing. intros Hu Hl.
  apply andb_prop in Hu as [Hu _]. apply andb_prop in Hu as [Hu _].
  rewrite forallb_forall in Hu. specialize (Hu l (proj1 (list_elem_of_In _ _) Hl)).
  apply andb_prop in Hu as [H1 H2]. apply Qeq_bool_iff in H1, H2. auto.
Qed.

Lemma uniform_spacing_cell mg (dx : Q) (n : nat) :
  uniform_spacing mg dx = true → is_core (status_of mg n) = true →
  ∃ a, area_of_cell mg !! n = Some (Some a) ∧ a == dx * dx.
Proof.
  unfold uniform_spacing. intros Hu Hn.
  apply andb_prop in Hu as [Hu Hc]. apply andb_prop in Hu as [_ Ha].
  rewrite forallb_forall in Hc, Ha.
  assert (Hin : n ∈ core_nodes mg).
  { apply elem_of_core_nodes. unfold status_of in Hn.
    destruct (status_at_node mg !! n) as [[]|]; simpl in Hn; congruence. }
  specialize (Hc n (proj1 (list_elem_of_In _ _) Hin)).
  destruct (area_of_cell mg !! n) as [[a|]|] eqn:Hcell; try discriminate.
  exists a. split; [reflexivity|].
  apply list_elem_of_lookup_2, list_elem_of_In in Hcell.
  specialize (Ha _ Hcell). simpl in Ha. apply Qeq_bool_iff, Ha.
Qed.

Lemma all_boundaries_closed_status mg (n : nat) :
  all_boundaries_closed mg = true → status_of mg n ≠ FIXED_VALUE_BOUNDARY.
Proof.
  unfold all_boundaries_closed, status_of. rewrite forallb_forall. intros Hc.
  destruct (status_at_node mg !! n) as [st|] eqn:Hst; simpl; [|discriminate].
  apply list_elem_of_lookup_2, list_elem_of_In in Hst. specialize (Hc _ Hst).
  apply negb_true_iff, bool_decide_eq_false in Hc. exact Hc.
Qed.

Lemma core_status_elem mg (n : nat) :
  is_core (status_of mg n) = true → n ∈ core_nodes mg.
Proof.
  intros Hn. apply elem_of_core_nodes. unfold status_of in Hn.
  destruct (status_at_node mg !! n) as [[]|]; simpl in Hn; congruence.
Qed.

(** C3.  On a grid of uniform spacing whose boundary nodes are all closed,
    one step from a state of the program leaves the sum of the elevations
    over the core nodes unchanged, for every elevation field, diffusivity
    and time step. *)
Theorem closed_boundaries_conserve_sum mg (D dt dx : Q) s :
  well_formed mg = true → fits mg s → flux_clean mg (sediment_flux s) →
  uniform_spacing mg dx = true → all_boundaries_closed mg = true →
  ∃ s', step mg D dt s = Ok s' ∧
    sum_at (λ n, topographic__elevation s' !!! n) (core_nodes mg) ==
    sum_at (λ n, topographic__elevation s !!! n) (core_nodes mg).
Proof.
  intros Hwf Hfit Hcl Hu Hbc.
  destruct (step_closed_form mg D dt s Hwf Hfit Hcl) as (s' & Hs & _ & _ & _ & Hz).
  exists s'. split; [exact Hs|].
  set (z := topographic__elevation s) in *.
  set (G := λ l : Link Q, unit_flux mg D z l * width_of_face l).
  rewrite (sum_at_ext _ (λ n, z !!! n + (- dt / (dx * dx)) * signed_sum n G (links mg))).
  - rewrite sum_at_plus, sum_at_scale, sum_at_signed_sum_cancel; [ring | | |].
    + apply NoDup_where.
    + intros l Hl. apply (well_formed_elem mg l Hwf Hl).
    + intros l Hl. unfold G, unit_flux.
      destruct (link_is_active mg l) eqn:Ha; [right | left; ring].
      unfold link_is_active in Ha.
      pose proof (all_boundaries_closed_status mg (node_at_link_tail l) Hbc) as Ht.
      pose proof (all_boundaries_closed_status mg (node_at_link_head l) Hbc) as Hh.
      split; apply core_status_elem;
        destruct (status_of mg (node_at_link_tail l)),
                 (status_of mg (node_at_link_head l));
        simpl in *; congruence.
  - intros n Hn. cbv beta.
    assert (Hlt : (n < number_of_nodes mg)%nat).
    { eapply (proj1 (Forall_forall _ _) (core_nodes_bound mg)), Hn. }
    rewrite (Hz n Hlt).
    assert (Hc : is_core (status_of mg n) = true)
      by (apply core_nodes_status; assumption).
    unfold diffused, divergence. rewrite Hc.
    destruct (uniform_spacing_cell mg dx n Hu Hc) as (a & -> & Ha).
    fold G. rewrite Ha. unfold Qdiv. ring.
Qed.
Lemma sum_at_app (f : nat → Q) (ns ms : list nat) :
  sum_at f (ns ++ ms) == sum_at f ns + sum_at f ms.
Proof.
  induction ns as [|n ns IH]; cbn [sum_at app]; [ring|].
  fold (sum_at f (ns ++ ms)) (sum_at f ns). rewrite IH. ring.
Qed.

Lemma sum_at_cons (f : nat → Q) (n : nat) (ns : list nat) :
  sum_at f (n :: ns) == f n + sum_at f ns.
Proof. reflexivity. Qed.

(** On links of length and face width [dx], the net outflux of node [n] is
    the diffusivity times the sum of the drops to its active neighbours. *)
Lemma signed_sum_far_ends mg (D dx : Q) z (n : nat) (ls : list (Link Q)) :
  ¬ dx == 0 →
  (∀ l, l ∈ ls → length_of_link l == dx ∧ width_of_face l == dx) →
  signed_sum n (λ l, unit_flux mg D z l * width_of_face l) ls ==
  - (D * sum_at (λ m, z !!! m - z !!! n) (far_ends mg n ls)).
Proof.
  intros Hdx. induction ls as [|l ls IH]; intros Hu; cbn [signed_sum far_ends flat_map].
  - cbn. ring.
  - fold (far_ends mg n ls). rewrite sum_at_app.
    rewrite IH by (intros; apply Hu; right; assumption).
    destruct (Hu l ltac:(left)) as [Hlen Hw].
    unfold unit_flux, gradient.
    destruct (link_is_active mg l).
    + destruct (decide (node_at_link_tail l = n)) as [<-|Ht].
      * rewrite sum_at_cons, Hlen, Hw. cbn [sum_at]. field. exact Hdx.
      * destruct (decide (node_at_link_head l = n)) as [<-|Hh].
        -- rewrite sum_at_cons, Hlen, Hw. cbn [sum_at]. field. exact Hdx.
        -- cbn [sum_at]. ring.
    + repeat destruct (decide _); cbn [sum_at]; ring.
Qed.

(** On a grid of uniform spacing a core node moves by [D * dt / dx^2] times
    the sum of the differences to its active neighbours. *)
Lemma diffused_uniform mg (D dt dx : Q) z (n : nat) :
  uniform_spacing mg dx = true → 0 < dx → is_core (status_of mg n) = true →
  diffused mg D dt z n ==
  z !!! n + (D * dt / (dx * dx)) *
            sum_at (λ m, z !!! m - z !!! n) (active_neighbours mg n).
Proof.
  intros Hu Hdx Hc. unfold diffused, divergence. rewrite Hc.
  destruct (uniform_spacing_cell mg dx n Hu Hc) as (a & -> & Ha).
  assert (Hne : ¬ dx == 0) by lra.
  rewrite (signed_sum_far_ends mg D dx z n (links mg) Hne)
    by (intros l Hl; apply (uniform_spacing_link mg dx l Hu Hl)).
  fold (active_neighbours mg n). rewrite Ha. field. exact Hne.
Qed.

Lemma sum_at_upper (f : nat → Q) (ns : list nat) (b : Q) :
  (∀ m, m ∈ ns → f m <= b) →
  sum_at f ns <= inject_Z (Z.of_nat (length ns)) * b.
Proof.
  induction ns as [|n ns IH]; intros Hb.
  - cbn [sum_at length]. change (inject_Z (Z.of_nat 0)) with 0. lra.
  - rewrite sum_at_cons. cbn [length]. rewrite Nat2Z.inj_succ, <- Z.add_1_r, inject_Z_plus.
    specialize (IH ltac:(intros; apply Hb; right; assumption)).
    specialize (Hb n ltac:(left)).
    assert (E : (inject_Z (Z.of_nat (length ns)) + inject_Z 1) * b ==
                inject_Z (Z.of_nat (length ns)) * b + b) by ring.
    rewrite E. lra.
Qed.

Lemma sum_at_lower (f : nat → Q) (ns : list nat) (b : Q) :
  (∀ m, m ∈ ns → b <= f m) →
  inject_Z (Z.of_nat (length ns)) * b <= sum_at f ns.
Proof.
  induction ns as [|n ns IH]; intros Hb.
  - cbn [sum_at length]. change (inject_Z (Z.of_nat 0)) with 0. lra.
  - rewrite sum_at_cons. cbn [length]. rewrite Nat2Z.inj_succ, <- Z.add_1_r, inject_Z_plus.
    specialize (IH ltac:(intros; apply Hb; right; assumption)).
    specialize (Hb n ltac:(left)).
    assert (E : (inject_Z (Z.of_nat (length ns)) + inject_Z 1) * b ==
                inject_Z (Z.of_nat (length ns)) * b + b) by ring.
    rewrite E. lra.
Qed.

Lemma local_max_upper mg z (n : nat) :
  z !!! n <= local_max mg z n ∧
  ∀ m, m ∈ active_neighbours mg n → z !!! m <= local_max mg z n.
Proof.
  unfold local_max. induction (active_neighbours mg n) as [|k ks [IH0 IH]]; cbn [foldr].
  - split; [lra|]. intros m Hm. exfalso. eapply not_elem_of_nil, Hm.
  - split.
    + eapply Qle_trans; [exact IH0 | apply Q.le_max_r].
    + intros m Hm. apply elem_of_cons in Hm as [->|Hm].
      * apply Q.le_max_l.
      * eapply Qle_trans; [apply IH, Hm | apply Q.le_max_r].
Qed.

Lemma local_min_lower mg z (n : nat) :
  local_min mg z n <= z !!! n ∧
  ∀ m, m ∈ active_neighbours mg n → local_min mg z n <= z !!! m.
Proof.
  unfold local_min. induction (active_neighbours mg n) as [|k ks [IH0 IH]]; cbn [foldr].
  - split; [lra|]. intros m Hm. exfalso. eapply not_elem_of_nil, Hm.
  - split.
    + eapply Qle_trans; [apply Q.le_min_r | exact IH0].
    + intros m Hm. apply elem_of_cons in Hm as [->|Hm].
      * apply Q.le_min_l.
      * eapply Qle_trans; [apply Q.le_min_r | apply IH, Hm].
Qed.

(** The Courant number [D * dt / dx^2] of a step within the stability bound
    lies between 0 and 1/5. *)
Lemma courant_number_bound (D dt dx : Q) :
  0 < dx → 0 < D → 0 <= dt → dt <= (2 # 10) * dx * dx / D →
  0 <= D * dt / (dx * dx) ∧ D * dt / (dx * dx) <= 1 # 5.
Proof.
  intros Hdx HD Hdt Hb.
  assert (Hxx : 0 < dx * dx) by (apply Qmult_lt_0_compat; assumption).
  assert (HDdt : D * dt <= (1 # 5) * (dx * dx)).
  { assert (E : (2 # 10) * dx * dx / D * D == (1 # 5) * (dx * dx)) by (field; lra).
    rewrite <- E, (Qmult_comm D dt). apply Qmult_le_compat_r; lra. }
  split.
  - apply Qle_shift_div_l; [exact Hxx|]. rewrite Qmult_0_l.
    apply Qmult_le_0_compat; lra.
  - apply Qle_shift_div_r; [exact Hxx|]. exact HDdt.
Qed.
Lemma core_status_bound mg (n : nat) :
  is_core (status_of mg n) = true → (n < number_of_nodes mg)%nat.
Proof.
  intros Hc. eapply (proj1 (Forall_forall _ _) (core_nodes_bound mg)).
  apply core_status_elem, Hc.
Qed.

(** Within the stability bound a core node with at most four active
    neighbours moves to a value between the smallest and the largest old
    value around it. *)
Lemma diffused_within_local_range mg (D dt dx : Q) z (n : nat) :
  uniform_spacing mg dx = true → 0 < dx → 0 < D →
  0 <= dt → dt <= (2 # 10) * dx * dx / D →
  is_core (status_of mg n) = true →
  (length (active_neighbours mg n) <= 4)%nat →
  local_min mg z n <= diffused mg D dt z n ∧
  diffused mg D dt z n <= local_max mg z n.
Proof.
  intros Hu Hdx HD Hdt Hb Hc Hk.
  rewrite (diffused_uniform mg D dt dx _ n Hu Hdx Hc).
  destruct (courant_number_bound D dt dx Hdx HD Hdt Hb) as [Hr0 Hr1].
  destruct (local_max_upper mg z n) as [Hmax0 Hmax].
  destruct (local_min_lower mg z n) as [Hmin0 Hmin].
  assert (Hk' : inject_Z (Z.of_nat (length (active_neighbours mg n))) <= 4).
  { change 4 with (inject_Z 4). rewrite <- Zle_Qle. lia. }
  assert (Hk0 : 0 <= inject_Z (Z.of_nat (length (active_neighbours mg n)))).
  { change 0 with (inject_Z 0). rewrite <- Zle_Qle. lia. }
  pose proof (sum_at_upper (λ m, z !!! m - z !!! n) (active_neighbours mg n)
                (local_max mg z n - z !!! n)) as Hup.
  pose proof (sum_at_lower (λ m, z !!! m - z !!! n) (active_neighbours mg n)
                (local_min mg z n - z !!! n)) as Hlo.
  assert (Hup' := Hup ltac:(intros m Hm; specialize (Hmax m Hm); cbv beta; lra)).
  assert (Hlo' := Hlo ltac:(intros m Hm; specialize (Hmin m Hm); cbv beta; lra)).
  clear Hup Hlo. revert Hup' Hlo' Hk' Hk0 Hr0 Hr1 Hmax0 Hmin0.
  generalize (sum_at (λ m, z !!! m - z !!! n) (active_neighbours mg n)).
  generalize (inject_Z (Z.of_nat (length (active_neighbours mg n)))).
  generalize (D * dt / (dx * dx)).
  generalize (local_max mg z n). generalize (local_min mg z n).
  generalize (z !!! n).
  intros zn lo hi r k S Hup Hlo Hk' Hk0 Hr0 Hr1 Hmax0 Hmin0.
  assert (H1 : 0 <= (4 - k) * (hi - zn)) by (apply Qmult_le_0_compat; lra).
  assert (H2 : 0 <= (4 - k) * (zn - lo)) by (apply Qmult_le_0_compat; lra).
  assert (H3 : 0 <= r * (4 * (hi - zn) - S)) by (apply Qmult_le_0_compat; lra).
  assert (H4 : 0 <= r * (S - 4 * (lo - zn))) by (apply Qmult_le_0_compat; lra).
  assert (H5 : 0 <= ((1 # 5) - r) * (hi - zn)) by (apply Qmult_le_0_compat; lra).
  assert (H6 : 0 <= ((1 # 5) - r) * (zn - lo)) by (apply Qmult_le_0_compat; lra).
  split; lra.
Qed.

(** C10, as amended.  On a grid of uniform spacing, for a positive
    diffusivity and a time step between 0 and 0.2 x spacing^2 / diffusivity,
    the new value of a core node with at most four active neighbours lies
    between the smallest and the largest old value over the node and its
    neighbours across active links. *)
Theorem discrete_maximum_principle mg (D dt dx : Q) s (n : nat) :
  well_formed mg = true → fits mg s → flux_clean mg (sediment_flux s) →
  uniform_spacing mg dx = true → 0 < dx → 0 < D →
  0 <= dt → dt <= (2 # 10) * dx * dx / D →
  is_core (status_of mg n) = true →
  (length (active_neighbours mg n) <= 4)%nat →
  ∃ s', step mg D dt s = Ok s' ∧
    local_min mg (topographic__elevation s) n <= topographic__elevation s' !!! n ∧
    topographic__elevation s' !!! n <= local_max mg (topographic__elevation s) n.
Proof.
  intros Hwf Hfit Hcl Hu Hdx HD Hdt Hb Hc Hk.
  destruct (step_closed_form mg D dt s Hwf Hfit Hcl) as (s' & Hs & _ & _ & _ & Hz).
  exists s'. split; [exact Hs|].
  rewrite (Hz n (core_status_bound mg n Hc)).
  exact (diffused_within_local_range mg D dt dx _ n Hu Hdx HD Hdt Hb Hc Hk).
Qed.





Lemma active_neighbours_bound mg (n m : nat) :
  well_formed mg = true → m ∈ active_neighbours mg n → (m < number_of_nodes mg)%nat.
Proof.
  intros Hwf. unfold active_neighbours, far_ends. rewrite list_elem_of_In, in_flat_map.
  intros (l & Hl & Hm). apply list_elem_of_In in Hl.
  destruct (well_formed_elem mg l Hwf Hl) as (Ht & Hh & _).
  destruct (link_is_active mg l); [|destruct Hm].
  destruct (decide (node_at_link_tail l = n)); [destruct Hm as [<-|[]]; exact Hh|].
  destruct (decide (node_at_link_head l = n)); [destruct Hm as [<-|[]]; exact Ht|].
  destruct Hm.
Qed.

Lemma local_max_lub mg z (n : nat) (M : Q) :
  z !!! n <= M → (∀ m, m ∈ active_neighbours mg n → z !!! m <= M) →
  local_max mg z n <= M.
Proof.
  unfold local_max. intros Hn.
  induction (active_neighbours mg n) as [|k ks IH]; intros Hm; cbn [foldr].
  - exact Hn.
  - apply Q.max_lub; [apply Hm; left|].
    apply IH. intros m Hin. apply Hm. right. exact Hin.
Qed.

Lemma local_min_glb mg z (n : nat) (M : Q) :
  M <= z !!! n → (∀ m, m ∈ active_neighbours mg n → M <= z !!! m) →
  M <= local_min mg z n.
Proof.
  unfold local_min. intros Hn.
  induction (active_neighbours mg n) as [|k ks IH]; intros Hm; cbn [foldr].
  - exact Hn.
  - apply Q.min_glb; [apply Hm; left|].
    apply IH. intros m Hin. apply Hm. right. exact Hin.
Qed.


Lemma magnitude_upper (z : list Q) (n : nat) :
  (n < length z)%nat → Qabs (z !!! n) <= magnitude z.
Proof.
  revert n; induction z as [|x z IH]; intros n Hn; cbn [length] in Hn; [lia|].
  cbn [magnitude foldr]. fold (magnitude z). destruct n as [|n].
  - apply Q.le_max_l.
  - eapply Qle_trans; [apply (IH n); lia | apply Q.le_max_r].
Qed.



(** Every raster grid, with any of its edges closed, satisfies the
    hypotheses on the grid made above. *)
Lemma raster_is_regular (nrows ncols : nat) (dx : Q) (right top left bottom : bool) :
  let mg := set_closed_boundaries_at_grid_edges nrows ncols right top left bottom
              (RasterModelGrid nrows ncols dx) in
  well_formed mg = true ∧ uniform_spacing mg dx = true ∧
  at_most_four_neighbours mg = true.
Proof.
  intros mg. split; [|split].
  - unfold mg. rewrite set_closed_boundaries_well_formed.
    apply RasterModelGrid_well_formed.
  - unfold uniform_spacing. apply andb_true_intro. split; [apply andb_true_intro; split|].
    + apply forallb_forall. intros l Hl. apply list_elem_of_In in Hl.
      destruct (raster_links_spec nrows ncols dx l Hl) as (_ & _ & _ & _ & _ & -> & -> & _).
      rewrite Qeq_bool_refl. reflexivity.
    + apply forallb_forall. intros c Hc. cbn in Hc.
      apply in_map_iff in Hc as (n & <- & _).
      destruct (on_perimeter nrows ncols n); [reflexivity|].
      apply Qeq_bool_iff, fmul_Q.
    + apply forallb_forall. intros n Hn.
      apply list_elem_of_In, elem_of_core_nodes in Hn.
      cbn [mg set_closed_boundaries_at_grid_edges status_at_node area_of_cell
           RasterModelGrid] in Hn |- *.
      rewrite list_lookup_imap, list_lookup_fmap in Hn.
      rewrite list_lookup_fmap.
      destruct (seq 0 (nrows * ncols) !! n) as [m|] eqn:Hm; [|discriminate].
      apply lookup_seq in Hm as [-> _]. cbn in Hn |- *.
      destruct (on_perimeter nrows ncols n); [|reflexivity].
      repeat match type of Hn with context [if ?b then _ else _] => destruct b end;
        discriminate.
  - unfold at_most_four_neighbours. apply forallb_forall. intros n _.
    apply Nat.leb_le. unfold active_neighbours.
    etransitivity; [apply far_ends_length|]. apply raster_degree.
Qed.

End ExactFacts.

(** ** The specification's scenarios *)

Section ScenarioFacts.
Local Open Scope Q_scope.

(** Splits [n ∈ l], for a list [l] that evaluates to a literal, into one
    goal per element. *)
Ltac each_elem H :=
  vm_compute in H;
  repeat (apply elem_of_cons in H as [->|H]);
  [.. | exfalso; exact (proj1 (elem_of_nil _) H)].

(** Decides a comparison between closed rationals. *)
Ltac qcompare := vm_compute; first [reflexivity | discriminate].

(** C1, as stated, fails.  On the 3 x 3 raster of spacing 2 with 10 at the
    core node and 0 elsewhere, D = 0.1 and dt = 2, the step stores 8 at the
    core node, whereas the old value minus [dt] times the signed sum of the
    incident fluxes is 6.  And the step does not set the flux of an inactive
    link: a flux array that holds 7 on the inactive link 0 still holds 7
    there after the step. *)
Lemma divergence_is_not_the_plain_flux_sum :
  let z := bump coarse_grid 4 10 in
  let clean := add_zeros_at_link coarse_grid in
  (∃ s', step coarse_grid (1 # 10) 2 (mkState z clean) = Ok s' ∧
     is_core (status_of coarse_grid 4) = true ∧
     topographic__elevation s' !!! 4%nat == 8 ∧
     spec_diffused coarse_grid (1 # 10) 2 z 4 == 6 ∧
     ¬ topographic__elevation s' !!! 4%nat == spec_diffused coarse_grid (1 # 10) 2 z 4) ∧
  (∃ l s', links coarse_grid !! 0%nat = Some l ∧
     link_is_active coarse_grid l = false ∧
     step coarse_grid (1 # 10) 2 (mkState z (<[0%nat := 7]> clean)) = Ok s' ∧
     sediment_flux s' !! 0%nat = Some 7).
Proof.
  cbv zeta. split.
  - eexists. split; [vm_compute; reflexivity|].
    split; [reflexivity|]. split; [vm_compute; reflexivity|].
    split; [vm_compute; reflexivity|]. vm_compute. discriminate.
  - eexists _, _. split; [vm_compute; reflexivity|]. split; [vm_compute; reflexivity|].
    split; [vm_compute; reflexivity|]. reflexivity.
Qed.

(** C1 as amended, at the same state. *)
Lemma step_computes_flux_and_update_witness :
  let s := mkState (bump coarse_grid 4 10) (add_zeros_at_link coarse_grid) in
  well_formed coarse_grid = true ∧ fits coarse_grid s ∧
  ∃ s', step coarse_grid (1 # 10) 2 s = Ok s' ∧
    (∀ i l, links coarse_grid !! i = Some l →
       sediment_flux s' !!! i ==
       if link_is_active coarse_grid l
       then - (1 # 10) * ((topographic__elevation s !!! node_at_link_head l -
                           topographic__elevation s !!! node_at_link_tail l)
                          / length_of_link l)
       else 0) ∧
    (∀ n, (n < number_of_nodes coarse_grid)%nat →
       topographic__elevation s' !!! n ==
       if is_core (status_of coarse_grid n)
       then topographic__elevation s !!! n +
            - divergence coarse_grid (1 # 10) (topographic__elevation s) n * 2
       else topographic__elevation s !!! n) ∧
    (∀ n a, area_of_cell coarse_grid !! n = Some (Some a) →
       divergence coarse_grid (1 # 10) (topographic__elevation s) n ==
       signed_sum n (λ l, unit_flux coarse_grid (1 # 10) (topographic__elevation s) l
                          * width_of_face l)
                  (links coarse_grid) / a).
Proof.
  intros s. split; [reflexivity|]. split; [split; reflexivity|].
  apply (step_computes_flux_and_update coarse_grid (1 # 10) 2 s);
    [reflexivity | split; reflexivity | apply flux_clean_add_zeros].
Defined.

(** C4 at the scenario grid with the value 3 at every node. *)
Lemma uniform_field_is_fixed_point_witness :
  let s := mkState (replicate 25 3) (add_zeros_at_link scenario_grid) in
  well_formed scenario_grid = true ∧ fits scenario_grid s ∧
  ∃ s', step scenario_grid (1 # 10) 2 s = Ok s' ∧
    ∀ n, (n < number_of_nodes scenario_grid)%nat →
      topographic__elevation s' !!! n == topographic__elevation s !!! n.
Proof.
  intros s. split; [reflexivity|]. split; [split; reflexivity|].
  apply (uniform_field_is_fixed_point scenario_grid (1 # 10) 2 3 s);
    [reflexivity | split; reflexivity | apply flux_clean_add_zeros |].
  intros n Hn. change (number_of_nodes scenario_grid) with 25%nat in Hn.
  unfold s. cbn [topographic__elevation].
  rewrite lookup_total_replicate_2 by exact Hn. reflexivity.
Defined.

(** C3 at the scenario: 10 at the centre node, D = 0.1, dt = 2. *)
Lemma closed_boundaries_conserve_sum_witness :
  well_formed scenario_grid = true ∧ fits scenario_grid (scenario_state 12) ∧
  uniform_spacing scenario_grid 1 = true ∧ all_boundaries_closed scenario_grid = true ∧
  ∃ s', step scenario_grid (1 # 10) 2 (scenario_state 12) = Ok s' ∧
    sum_at (λ n, topographic__elevation s' !!! n) (core_nodes scenario_grid) ==
    sum_at (λ n, topographic__elevation (scenario_state 12) !!! n) (core_nodes scenario_grid).
Proof.
  split; [reflexivity|]. split; [split; reflexivity|].
  split; [reflexivity|]. split; [reflexivity|].
  apply (closed_boundaries_conserve_sum scenario_grid (1 # 10) 2 1 (scenario_state 12));
    [reflexivity | split; reflexivity | apply flux_clean_add_zeros
    | reflexivity | reflexivity].
Defined.
(** C6.  On the 5 x 5 raster of spacing 1 with closed edges, flat at 0
    except for one core node [p] raised to 10, with D = 0.1 and
    dt = 0.2 * 1 * 1 / 0.1 = 2: one step lowers node [p] by exactly
    dt x D x (number of active links at [p]) x (10 / spacing), and raises
    every neighbour across an active link, all of them core nodes, by that
    amount divided by the number of active links. *)
Theorem scenario_step_is_exact (p : nat) :
  p ∈ core_nodes scenario_grid →
  ∃ s', step scenario_grid (1 # 10) (courant_dt 1 (1 # 10)) (scenario_state p) = Ok s' ∧
    let k := inject_Z (Z.of_nat (length (active_neighbours scenario_grid p))) in
    let drop := courant_dt 1 (1 # 10) * (1 # 10) * k * (10 / 1) in
    courant_dt 1 (1 # 10) == 2 ∧
    topographic__elevation s' !!! p == 10 - drop ∧
    ∀ m, m ∈ active_neighbours scenario_grid p →
      is_core (status_of scenario_grid m) = true ∧
      topographic__elevation s' !!! m == 0 + drop / k.
Proof.
  intros Hp. each_elem Hp;
    (eexists; split; [vm_compute; reflexivity|]; cbv zeta;
     split; [vm_compute; reflexivity|]; split; [vm_compute; reflexivity|];
     intros m Hm; each_elem Hm; (split; vm_compute; reflexivity)).
Qed.

(** C6 at the centre node: four active links, the node drops by 8 to 2. *)
Lemma scenario_step_is_exact_witness :
  12%nat ∈ core_nodes scenario_grid ∧
  ∃ s', step scenario_grid (1 # 10) (courant_dt 1 (1 # 10)) (scenario_state 12) = Ok s' ∧
    let k := inject_Z (Z.of_nat (length (active_neighbours scenario_grid 12))) in
    let drop := courant_dt 1 (1 # 10) * (1 # 10) * k * (10 / 1) in
    courant_dt 1 (1 # 10) == 2 ∧
    topographic__elevation s' !!! 12%nat == 10 - drop ∧
    ∀ m, m ∈ active_neighbours scenario_grid 12 →
      is_core (status_of scenario_grid m) = true ∧
      topographic__elevation s' !!! m == 0 + drop / k.
Proof.
  assert (H12 : 12%nat ∈ core_nodes scenario_grid)
    by (apply elem_of_where; reflexivity).
  split; [exact H12|]. apply (scenario_step_is_exact 12 H12).
Defined.

(** *** Grids that differ in spacing only

    Two grids with the same node statuses whose links join the same nodes,
    each of uniform spacing, run the same way when [D * dt / dx^2] is the
    same on both. *)



Section Similar.
Variables (mg1 mg2 : ModelGrid Q) (D1 dt1 dx1 D2 dt2 dx2 : Q).
Hypothesis Hwf1 : well_formed mg1 = true.
Hypothesis Hwf2 : well_formed mg2 = true.
Hypothesis Hu1 : uniform_spacing mg1 dx1 = true.
Hypothesis Hu2 : uniform_spacing mg2 dx2 = true.
Hypothesis Hdx1 : 0 < dx1.
Hypothesis Hdx2 : 0 < dx2.
Hypothesis Hst : status_at_node mg1 = status_at_node mg2.
Hypothesis Hnb : ∀ n, active_neighbours mg1 n = active_neighbours mg2 n.
Hypothesis Hratio : D1 * dt1 / (dx1 * dx1) == D2 * dt2 / (dx2 * dx2).



End Similar.






(** C10, as stated, fails: a negative time step satisfies
    dt <= 0.2 x spacing^2 / diffusivity, and with dt = -2 the centre node of
    the scenario goes from 10 to 18, above every old value around it. *)
Lemma negative_time_step_overshoots :
  let z := topographic__elevation (scenario_state 12) in
  let D := 1 # 10 in
  let dt := - (2) in
  0 < D ∧ dt <= (2 # 10) * 1 * 1 / D ∧
  uniform_spacing scenario_grid 1 = true ∧
  is_core (status_of scenario_grid 12) = true ∧
  ∃ s', step scenario_grid D dt (scenario_state 12) = Ok s' ∧
    local_max scenario_grid z 12 == 10 ∧
    topographic__elevation s' !!! 12%nat == 18 ∧
    ¬ topographic__elevation s' !!! 12%nat <= local_max scenario_grid z 12.
Proof.
  cbv zeta. repeat (split; [qcompare|]).
  eexists. split; [vm_compute; reflexivity|].
  split; [qcompare|]. split; [qcompare|].
  vm_compute. intros Hle. apply Hle. reflexivity.
Qed.

(** C10 as amended, at the scenario with dt at the stability bound. *)
Lemma discrete_maximum_principle_witness :
  let s := scenario_state 12 in
  well_formed scenario_grid = true ∧ fits scenario_grid s ∧
  uniform_spacing scenario_grid 1 = true ∧
  0 <= 2 ∧ 2 <= (2 # 10) * 1 * 1 / (1 # 10) ∧
  is_core (status_of scenario_grid 12) = true ∧
  (length (active_neighbours scenario_grid 12) <= 4)%nat ∧
  ∃ s', step scenario_grid (1 # 10) 2 s = Ok s' ∧
    local_min scenario_grid (topographic__elevation s) 12
      <= topographic__elevation s' !!! 12%nat ∧
    topographic__elevation s' !!! 12%nat
      <= local_max scenario_grid (topographic__elevation s) 12.
Proof.
  intros s. split; [reflexivity|]. split; [split; reflexivity|].
  split; [reflexivity|]. split; [qcompare|]. split; [qcompare|].
  split; [reflexivity|]. split; [vm_compute; lia|].
  apply (discrete_maximum_principle scenario_grid (1 # 10) 2 1 s 12);
    [reflexivity | split; reflexivity | apply flux_clean_add_zeros | reflexivity
    | reflexivity | reflexivity | qcompare | qcompare | reflexivity
    | vm_compute; lia].
Defined.
(** The output printed by [fields/working_with_fields.ipynb] for
    [RasterModelGrid((3, 4), 1.)]: an array of ones on the 17 links with the
    active links set to zero. *)
Lemma working_with_fields_output :
  let mg := RasterModelGrid 3 4 1 in
  put (replicate (number_of_links mg) 1%Z) (active_links mg)
      (replicate (length (active_links mg)) 0%Z)
  = Ok [1; 1; 1; 1; 0; 0; 1; 0; 0; 0; 1; 0; 0; 1; 1; 1; 1]%Z.
Proof. vm_compute. reflexivity. Qed.

(** The counts stated by the fault-scarp notebook for its 25 x 40 grid with
    the east and west edges closed: 1000 nodes, 874 of them core nodes. *)
Lemma tutorial_grid_counts :
  number_of_nodes tutorial_grid = 1000%nat ∧
  length (core_nodes tutorial_grid) = 874%nat.
Proof. split; vm_compute; reflexivity. Qed.

(** The grid operators on the 3 x 4 raster of spacing 10 with elevations 50
    and 36 at its two core nodes, the example of the documentation of
    [calc_flux_div_at_node]: 17 links, gradients 5, 3.6 = 18/5,
    -1.4 = -7/5, ... and a divergence of 1.64 = 41/25 and 0.94 = 47/50 at the
    core nodes, zero on the perimeter. *)
Lemma documented_example :
  let rg := RasterModelGrid 3 4 10 in
  let z := <[5%nat := 50]> (<[6%nat := 36]> (add_zeros_at_node rg)) in
  number_of_links rg = 17%nat ∧
  active_links rg = [4; 5; 7; 8; 9; 11; 12]%nat ∧
  calc_grad_at_link rg z =
    Ok [0; 0; 0; 0; 5; 18 # 5; 0; 5; -7 # 5; -18 # 5; 0; -5; -18 # 5;
        0; 0; 0; 0] ∧
  (lg ← calc_grad_at_link rg z; calc_flux_div_at_node rg (map fneg lg)) =
    Ok [0; 0; 0; 0; 0; 41 # 25; 47 # 50; 0; 0; 0; 0; 0].
Proof. cbv zeta. repeat split; vm_compute; reflexivity. Qed.
End ScenarioFacts.

(** ** The scenario in binary64 arithmetic *)

Section Binary64Facts.
Local Open Scope float_scope.

Ltac each_node H :=
  vm_compute in H;
  repeat (apply elem_of_cons in H as [->|H]);
  [.. | exfalso; exact (proj1 (elem_of_nil _) H)].

(** The step of C6 in binary64: [dt] is exactly 2, the perturbed node ends
    at exactly 10 - 2k for its k active links and each of its active
    neighbours at exactly 2; no rounding occurs. *)
Lemma scenario_step_binary64 (p : nat) :
  p ∈ core_nodes scenario_grid64 →
  dt64 = 2 ∧
  ∃ s', step scenario_grid64 D64 dt64 (scenario_state64 p) = Ok s' ∧
    topographic__elevation s' !!! p =
      10 - Nat.iter (length (active_neighbours scenario_grid64 p)) (PrimFloat.add 2) 0 ∧
    ∀ m, m ∈ active_neighbours scenario_grid64 p →
      topographic__elevation s' !!! m = 2.
Proof.
  intros Hp. split; [vm_compute; reflexivity|].
  each_node Hp;
    (eexists; split; [vm_compute; reflexivity|];
     split; [vm_compute; reflexivity|];
     intros m Hm; each_node Hm; vm_compute; reflexivity).
Qed.

(** The runs of C5 in binary64, from the centre node: at most 10 after
    every number of steps up to 50 with [dt64], at least [5 * 2^k] after
    k steps with five times [dt64]. *)
Lemma stable_and_unstable_runs_binary64 (k : nat) :
  k ≤ 50 →
  (∃ s', run k scenario_grid64 D64 dt64 (scenario_state64 12) = Ok s' ∧
         PrimFloat.leb (magnitude64 (topographic__elevation s')) 10 = true) ∧
  (∃ s', run k scenario_grid64 D64 (5 * dt64) (scenario_state64 12) = Ok s' ∧
         PrimFloat.leb (Nat.iter k (PrimFloat.mul 2) 5)
                       (magnitude64 (topographic__elevation s')) = true).
Proof.
  intros Hk.
  assert (Hs : holds_along 50 not_grown64 0 scenario_grid64 D64 dt64
                 (scenario_state64 12) = true) by (vm_compute; reflexivity).
  assert (Hu : holds_along 50 blown_up64 0 scenario_grid64 D64 (5 * dt64)
                 (scenario_state64 12) = true) by (vm_compute; reflexivity).
  split.
  - destruct (holds_along_run _ _ _ _ _ _ _ Hs k Hk) as (s' & Hrun & HP). eauto.
  - destruct (holds_along_run _ _ _ _ _ _ _ Hu k Hk) as (s' & Hrun & HP). eauto.
Qed.
End Binary64Facts.

(** * Further properties of the stepper *)

(** ** For every scalar arithmetic *)

Section MoreStructural.
Context {A : Type} `{Scalar A}.
Implicit Types (mg : ModelGrid A) (z qs : list A) (s : State A) (l : Link A).

Lemma link_is_active_ends mg l :
  link_is_active mg l = true →
  status_of mg (node_at_link_tail l) ≠ CLOSED_BOUNDARY ∧
  status_of mg (node_at_link_head l) ≠ CLOSED_BOUNDARY.
Proof.
  unfold link_is_active.
  destruct (status_of mg (node_at_link_tail l)), (status_of mg (node_at_link_head l));
    simpl; intros E; split; congruence.
Qed.

(** Two runs of the step whose stored fluxes and elevations are given by the
    same expressions end in the same state. *)
Lemma step_agree mg (D dt : A) s1 s2 s1' s2' :
  well_formed mg = true → fits mg s1 → fits mg s2 →
  step mg D dt s1 = Ok s1' → step mg D dt s2 = Ok s2' →
  (∀ i l, links mg !! i = Some l → flux_after mg D s1 i l = flux_after mg D s2 i l) →
  sediment_flux s1' = sediment_flux s2' ∧
  ∀ n, topographic__elevation s1 !!! n = topographic__elevation s2 !!! n →
       topographic__elevation s1' !! n = topographic__elevation s2' !! n.
Proof.
  intros Hwf Hf1 Hf2 Hs1 Hs2 Hflux.
  destruct (step_spec mg D dt s1 Hwf Hf1) as (t1 & E1 & [Hz1 Hq1] & Hfl1 & Hel1).
  destruct (step_spec mg D dt s2 Hwf Hf2) as (t2 & E2 & [Hz2 Hq2] & Hfl2 & Hel2).
  rewrite Hs1 in E1. rewrite Hs2 in E2. injection E1 as <-. injection E2 as <-.
  assert (Hq : sediment_flux s1' = sediment_flux s2').
  { apply list_eq. intros i.
    destruct (links mg !! i) as [l|] eqn:Hl.
    - rewrite (Hfl1 i l Hl), (Hfl2 i l Hl), (Hflux i l Hl). reflexivity.
    - apply lookup_ge_None in Hl. unfold number_of_links in Hq1, Hq2.
      rewrite !lookup_ge_None_2 by lia. reflexivity. }
  split; [exact Hq|]. intros n Hn.
  destruct (decide (n < number_of_nodes mg)) as [Hlt|Hge].
  - rewrite (Hel1 n Hlt), (Hel2 n Hlt). unfold elevation_after.
    rewrite Hq, Hn. reflexivity.
  - rewrite !lookup_ge_None_2 by lia. reflexivity.
Qed.

(** X1.  In the program the flux array is scratch state: two states with
    the same elevations, each with a flux array that is zero on the inactive
    links, are taken to the same state by any number of steps. *)
Theorem run_depends_on_elevation_only (k : nat) mg (D dt : A) s1 s2 :
  well_formed mg = true → fits mg s1 → fits mg s2 →
  flux_clean mg (sediment_flux s1) → flux_clean mg (sediment_flux s2) →
  topographic__elevation s1 = topographic__elevation s2 →
  0 < k →
  run k mg D dt s1 = run k mg D dt s2.
Proof.
  intros Hwf Hf1 Hf2 Hc1 Hc2 Hz Hk.
  destruct k as [|k]; [lia|]. cbn [run].
  destruct (step_spec mg D dt s1 Hwf Hf1) as (t1 & E1 & [Hz1 Hq1] & _).
  destruct (step_spec mg D dt s2 Hwf Hf2) as (t2 & E2 & [Hz2 Hq2] & _).
  rewrite E1, E2. simpl.
  destruct (step_agree mg D dt s1 s2 t1 t2 Hwf Hf1 Hf2 E1 E2) as [Hq Hel].
  { intros i l Hl. unfold flux_after. rewrite Hz.
    destruct (link_is_active mg l) eqn:Ha; [reflexivity|].
    rewrite (Hc1 i l Hl Ha), (Hc2 i l Hl Ha). reflexivity. }
  assert (Et : t1 = t2).
  { destruct t1 as [z1 q1], t2 as [z2 q2]. simpl in *. f_equal; [|exact Hq].
    apply list_eq. intros n. apply Hel. rewrite Hz. reflexivity. }
  rewrite Et. reflexivity.
Qed.

(** X2.  Closed nodes are walls: if two elevation fields differ only at
    closed nodes, one step stores the same fluxes for both and leaves them
    equal at every node that is not closed. *)
Theorem closed_nodes_are_walls mg (D dt : A) s1 s2 :
  well_formed mg = true → fits mg s1 → fits mg s2 →
  sediment_flux s1 = sediment_flux s2 →
  (∀ n, status_of mg n ≠ CLOSED_BOUNDARY →
        topographic__elevation s1 !!! n = topographic__elevation s2 !!! n) →
  ∃ s1' s2', step mg D dt s1 = Ok s1' ∧ step mg D dt s2 = Ok s2' ∧
    sediment_flux s1' = sediment_flux s2' ∧
    ∀ n, status_of mg n ≠ CLOSED_BOUNDARY →
         topographic__elevation s1' !! n = topographic__elevation s2' !! n.
Proof.
  intros Hwf Hf1 Hf2 Hqs Hz.
  destruct (step_spec mg D dt s1 Hwf Hf1) as (t1 & E1 & _).
  destruct (step_spec mg D dt s2 Hwf Hf2) as (t2 & E2 & _).
  exists t1, t2. split; [exact E1|]. split; [exact E2|].
  destruct (step_agree mg D dt s1 s2 t1 t2 Hwf Hf1 Hf2 E1 E2) as [Hq Hel].
  { intros i l Hl. unfold flux_after. rewrite Hqs.
    destruct (link_is_active mg l) eqn:Ha; [|reflexivity].
    destruct (link_is_active_ends mg l Ha) as [Ht Hh].
    unfold grad_value. rewrite (Hz _ Ht), (Hz _ Hh). reflexivity. }
  split; [exact Hq|]. intros n Hn. apply Hel, Hz, Hn.
Qed.

(** X4.  A flux array that does not have one cell per link makes the step
    raise: [IndexError] at the assignment to the active links if one of them
    is out of range, [ValueError] at the divergence otherwise. *)
Theorem step_raises_on_wrong_flux_size mg (D dt : A) s :
  well_formed mg = true →
  length (topographic__elevation s) = number_of_nodes mg →
  length (sediment_flux s) ≠ number_of_links mg →
  step mg D dt s = Raise IndexError ∨ step mg D dt s = Raise ValueError.
Proof.
  intros Hwf Hz Hq. unfold step.
  destruct (calc_grad_at_link_spec mg _ Hwf Hz) as (g & -> & Hgl & _). simpl.
  destruct (take_total g (active_links mg)) as [ga Hga].
  { rewrite Hgl. apply active_links_bound. }
  rewrite Hga. simpl.
  destruct (put (sediment_flux s) (active_links mg) (map (fmul (fneg D)) ga))
    as [qs'|e] eqn:Hput; simpl.
  - right. unfold calc_flux_div_at_node.
    rewrite (put_length _ _ _ _ Hput).
    destruct (decide _); [contradiction | reflexivity].
  - left. f_equal. clear -Hput Hga.
    assert (Hlen : length (map (fmul (fneg D)) ga) = length (active_links mg)).
    { rewrite length_fmap. eapply take_length, Hga. }
    clear Hga. revert Hput Hlen.
    generalize (map (fmul (fneg D)) ga). generalize (sediment_flux s).
    induction (active_links mg) as [|i idx IH]; intros a [|v vals] Hput Hlen;
      simpl in *; try discriminate.
    destruct (decide (i < length a)); [|congruence].
    eapply IH; [exact Hput | lia].
Qed.
End MoreStructural.

(** ** In exact arithmetic *)

Section MoreExactFacts.
Local Open Scope Q_scope.
Implicit Types (mg : ModelGrid Q) (z qs : list Q) (s : State Q) (l : Link Q).

Lemma signed_sum_lincomb (n : nat) (a b : Q) (F1 F2 F : Link Q → Q) (ls : list (Link Q)) :
  (∀ l, l ∈ ls → F l == a * F1 l + b * F2 l) →
  signed_sum n F ls == a * signed_sum n F1 ls + b * signed_sum n F2 ls.
Proof.
  induction ls as [|l ls IH]; intros HF; cbn [signed_sum]; [ring|].
  rewrite IH by (intros; apply HF; right; assumption).
  assert (Hl : F l == a * F1 l + b * F2 l) by (apply HF; left).
  repeat destruct (decide _); rewrite ?Hl; ring.
Qed.

(** The update of an affine combination of two fields is the affine
    combination of the updates. *)
Lemma diffused_combine mg (D dt a b c : Q) z1 z2 z :
  well_formed mg = true →
  (∀ n, (n < number_of_nodes mg)%nat → z !!! n == a * z1 !!! n + b * z2 !!! n + c) →
  ∀ n, (n < number_of_nodes mg)%nat →
    diffused mg D dt z n == a * diffused mg D dt z1 n + b * diffused mg D dt z2 n + c.
Proof.
  intros Hwf Hz n Hn.
  assert (Hflux : ∀ l, l ∈ links mg →
            unit_flux mg D z l * width_of_face l ==
            a * (unit_flux mg D z1 l * width_of_face l) +
            b * (unit_flux mg D z2 l * width_of_face l)).
  { intros l Hl. destruct (well_formed_elem mg l Hwf Hl) as (Ht & Hh & _).
    unfold unit_flux, gradient. destruct (link_is_active mg l); [|ring].
    rewrite (Hz _ Ht), (Hz _ Hh). unfold Qdiv. ring. }
  assert (Hdiv : divergence mg D z n ==
                 a * divergence mg D z1 n + b * divergence mg D z2 n).
  { unfold divergence. destruct (area_of_cell mg !! n) as [[ar|]|]; try ring.
    rewrite (signed_sum_lincomb n a b _ _ _ (links mg) Hflux). unfold Qdiv. ring. }
  unfold diffused. destruct (is_core (status_of mg n)); [|apply Hz, Hn].
  rewrite Hdiv, (Hz n Hn). ring.
Qed.

Lemma lookup_total_zip_with_lt {X : Type} `{Inhabited X} (f : X → X → X)
    (xs ys : list X) (i : nat) :
  (i < length xs)%nat → (i < length ys)%nat →
  zip_with f xs ys !!! i = f (xs !!! i) (ys !!! i).
Proof.
  intros Hx Hy. apply list_lookup_total_correct. rewrite lookup_zip_with.
  rewrite (list_lookup_lookup_total_lt xs i Hx), (list_lookup_lookup_total_lt ys i Hy).
  reflexivity.
Qed.

Lemma lookup_total_fmap_lt {X : Type} `{Inhabited X} (f : X → X) (xs : list X) (i : nat) :
  (i < length xs)%nat → (f <$> xs) !!! i = f (xs !!! i).
Proof.
  intros Hx. apply list_lookup_total_correct. rewrite list_lookup_fmap.
  rewrite (list_lookup_lookup_total_lt xs i Hx). reflexivity.
Qed.

(** X5.  The step is linear in the elevations: from states of the program,
    the step of [a * z1 + b * z2] is [a] times the step of [z1] plus [b]
    times the step of [z2], at every node. *)
Theorem step_is_linear mg (D dt a b : Q) z1 z2 qs1 qs2 qs :
  well_formed mg = true →
  fits mg (mkState z1 qs1) → fits mg (mkState z2 qs2) → length qs = number_of_links mg →
  flux_clean mg qs1 → flux_clean mg qs2 → flux_clean mg qs →
  ∃ s1 s2 s',
    step mg D dt (mkState z1 qs1) = Ok s1 ∧ step mg D dt (mkState z2 qs2) = Ok s2 ∧
    step mg D dt (mkState (zip_with (λ x y, a * x + b * y) z1 z2) qs) = Ok s' ∧
    ∀ n, (n < number_of_nodes mg)%nat →
      topographic__elevation s' !!! n ==
      a * topographic__elevation s1 !!! n + b * topographic__elevation s2 !!! n.
Proof.
  intros Hwf Hf1 Hf2 Hq Hc1 Hc2 Hc.
  pose proof Hf1 as [Hz1 _]. pose proof Hf2 as [Hz2 _]. simpl in Hz1, Hz2.
  assert (Hf : fits mg (mkState (zip_with (λ x y, a * x + b * y) z1 z2) qs)).
  { split; simpl; [|exact Hq]. rewrite length_zip_with. lia. }
  destruct (step_closed_form mg D dt _ Hwf Hf1 Hc1) as (s1 & E1 & _ & _ & _ & H1).
  destruct (step_closed_form mg D dt _ Hwf Hf2 Hc2) as (s2 & E2 & _ & _ & _ & H2).
  destruct (step_closed_form mg D dt _ Hwf Hf Hc) as (s' & E & _ & _ & _ & H').
  exists s1, s2, s'. repeat (split; [assumption|]).
  intros n Hn. rewrite (H' n Hn), (H1 n Hn), (H2 n Hn). simpl.
  rewrite (diffused_combine mg D dt a b 0 z1 z2 _ Hwf); [ring | | exact Hn].
  intros m Hm. rewrite lookup_total_zip_with_lt by lia. ring.
Qed.

(** X6.  Raising the whole field by a constant raises the result of the
    step by the same constant: the step only sees differences. *)
Theorem step_commutes_with_shift mg (D dt c : Q) z qs1 qs2 :
  well_formed mg = true → fits mg (mkState z qs1) → length qs2 = number_of_links mg →
  flux_clean mg qs1 → flux_clean mg qs2 →
  ∃ s1 s2,
    step mg D dt (mkState z qs1) = Ok s1 ∧
    step mg D dt (mkState (map (λ x, x + c) z) qs2) = Ok s2 ∧
    ∀ n, (n < number_of_nodes mg)%nat →
      topographic__elevation s2 !!! n == topographic__elevation s1 !!! n + c.
Proof.
  intros Hwf Hf1 Hq Hc1 Hc2. pose proof Hf1 as [Hz _]. simpl in Hz.
  assert (Hf : fits mg (mkState (map (λ x, x + c) z) qs2)).
  { split; simpl; [|exact Hq]. rewrite length_fmap. exact Hz. }
  destruct (step_closed_form mg D dt _ Hwf Hf1 Hc1) as (s1 & E1 & _ & _ & _ & H1).
  destruct (step_closed_form mg D dt _ Hwf Hf Hc2) as (s2 & E2 & _ & _ & _ & H2).
  exists s1, s2. repeat (split; [assumption|]).
  intros n Hn. rewrite (H2 n Hn), (H1 n Hn). simpl.
  rewrite (diffused_combine mg D dt 1 0 c z z _ Hwf); [ring | | exact Hn].
  intros m Hm. rewrite lookup_total_fmap_lt by lia. ring.
Qed.

Lemma signed_sum_scale (n : nat) (a : Q) (F1 F : Link Q → Q) (ls : list (Link Q)) :
  (∀ l, l ∈ ls → F l == a * F1 l) →
  signed_sum n F ls == a * signed_sum n F1 ls.
Proof.
  intros HF. rewrite (signed_sum_lincomb n a 0 F1 F1 F ls); [ring|].
  intros l Hl. rewrite (HF l Hl). ring.
Qed.

Lemma divergence_scale mg (D : Q) z (n : nat) :
  divergence mg D z n == D * divergence mg 1 z n.
Proof.
  unfold divergence. destruct (area_of_cell mg !! n) as [[ar|]|]; try ring.
  rewrite (signed_sum_scale n D (λ l, unit_flux mg 1 z l * width_of_face l)).
  - unfold Qdiv. ring.
  - intros l _. unfold unit_flux. destruct (link_is_active mg l); ring.
Qed.

(** X7.  The elevations after a step depend on the diffusivity and the time
    step only through their product. *)
Theorem step_depends_on_product mg (D1 dt1 D2 dt2 : Q) s :
  well_formed mg = true → fits mg s → flux_clean mg (sediment_flux s) →
  D1 * dt1 == D2 * dt2 →
  ∃ s1 s2, step mg D1 dt1 s = Ok s1 ∧ step mg D2 dt2 s = Ok s2 ∧
    ∀ n, (n < number_of_nodes mg)%nat →
      topographic__elevation s1 !!! n == topographic__elevation s2 !!! n.
Proof.
  intros Hwf Hf Hc Hp.
  destruct (step_closed_form mg D1 dt1 s Hwf Hf Hc) as (s1 & E1 & _ & _ & _ & H1).
  destruct (step_closed_form mg D2 dt2 s Hwf Hf Hc) as (s2 & E2 & _ & _ & _ & H2).
  exists s1, s2. repeat (split; [assumption|]).
  intros n Hn. rewrite (H1 n Hn), (H2 n Hn). unfold diffused.
  destruct (is_core (status_of mg n)); [|reflexivity].
  rewrite (divergence_scale mg D1), (divergence_scale mg D2).
  generalize (divergence mg 1 (topographic__elevation s) n). intros d.
  assert (E : - (D1 * d) * dt1 == - (D1 * dt1) * d) by ring.
  rewrite E, Hp. ring.
Qed.

(** X8.  With a zero diffusivity or a zero time step the step leaves every
    elevation where it is. *)
Theorem step_with_zero_product_is_identity mg (D dt : Q) s :
  well_formed mg = true → fits mg s → flux_clean mg (sediment_flux s) →
  D * dt == 0 →
  ∃ s', step mg D dt s = Ok s' ∧
    ∀ n, (n < number_of_nodes mg)%nat →
      topographic__elevation s' !!! n == topographic__elevation s !!! n.
Proof.
  intros Hwf Hf Hc Hp.
  destruct (step_closed_form mg D dt s Hwf Hf Hc) as (s' & E & _ & _ & _ & H').
  exists s'. split; [exact E|].
  intros n Hn. rewrite (H' n Hn). unfold diffused.
  destruct (is_core (status_of mg n)); [|reflexivity].
  rewrite (divergence_scale mg D).
  generalize (divergence mg 1 (topographic__elevation s) n). intros d.
  assert (E0 : - (D * d) * dt == - (D * dt) * d) by ring.
  rewrite E0, Hp. ring.
Qed.
End MoreExactFacts.

(** ** Stability and budget *)

Section StabilityFacts.
Local Open Scope Q_scope.
Implicit Types (mg : ModelGrid Q) (z qs : list Q) (s : State Q) (l : Link Q).

(** Within the stability bound the update of a field with values in
    [[lo, hi]] has its values in [[lo, hi]]. *)
Lemma diffused_keeps_range mg (D dt dx lo hi : Q) z :
  well_formed mg = true →
  uniform_spacing mg dx = true → at_most_four_neighbours mg = true →
  0 < dx → 0 < D → 0 <= dt → dt <= (2 # 10) * dx * dx / D →
  (∀ n, (n < number_of_nodes mg)%nat → lo <= z !!! n ∧ z !!! n <= hi) →
  ∀ n, (n < number_of_nodes mg)%nat →
    lo <= diffused mg D dt z n ∧ diffused mg D dt z n <= hi.
Proof.
  intros Hwf Hu H4 Hdx HD Hdt Hb Hz n Hn.
  destruct (is_core (status_of mg n)) eqn:Hc.
  - assert (Hk : (length (active_neighbours mg n) <= 4)%nat).
    { unfold at_most_four_neighbours in H4. rewrite forallb_forall in H4.
      apply Nat.leb_le, H4, list_elem_of_In, core_status_elem, Hc. }
    destruct (diffused_within_local_range mg D dt dx z n Hu Hdx HD Hdt Hb Hc Hk)
      as [Hlo Hhi].
    split.
    + eapply Qle_trans; [|exact Hlo]. apply local_min_glb.
      * apply Hz, Hn.
      * intros m Hm. apply Hz. eapply active_neighbours_bound; eauto.
    + eapply Qle_trans; [exact Hhi|]. apply local_max_lub.
      * apply Hz, Hn.
      * intros m Hm. apply Hz. eapply active_neighbours_bound; eauto.
  - unfold diffused. rewrite Hc. apply Hz, Hn.
Qed.

(** Within the stability bound every node stays in [[lo, hi]] along the
    run. *)
Lemma run_in_range (k : nat) mg (D dt dx lo hi : Q) s :
  well_formed mg = true → fits mg s → flux_clean mg (sediment_flux s) →
  uniform_spacing mg dx = true → at_most_four_neighbours mg = true →
  0 < dx → 0 < D → 0 <= dt → dt <= (2 # 10) * dx * dx / D →
  (∀ n, (n < number_of_nodes mg)%nat →
        lo <= topographic__elevation s !!! n ∧ topographic__elevation s !!! n <= hi) →
  ∃ s', run k mg D dt s = Ok s' ∧ fits mg s' ∧
    ∀ n, (n < number_of_nodes mg)%nat →
         lo <= topographic__elevation s' !!! n ∧ topographic__elevation s' !!! n <= hi.
Proof.
  intros Hwf Hfit Hcl Hu H4 Hdx HD Hdt Hb. revert s Hfit Hcl.
  induction k as [|k IH]; intros s Hfit Hcl Hz; cbn [run].
  - exists s. auto.
  - destruct (step_closed_form mg D dt s Hwf Hfit Hcl) as (s1 & -> & Hf1 & Hc1 & _ & H1).
    simpl. apply IH; [exact Hf1 | exact Hc1 |].
    intros n Hn. rewrite (H1 n Hn).
    apply (diffused_keeps_range mg D dt dx lo hi _ Hwf Hu H4 Hdx HD Hdt Hb Hz n Hn).
Qed.

(** X9.  Within the stability bound no elevation ever leaves the range of
    the field the loop started from: if every node starts in [[lo, hi]],
    every node is in [[lo, hi]] after any number of steps. *)
Theorem run_keeps_range (k : nat) mg (D dt dx lo hi : Q) s :
  well_formed mg = true → fits mg s → flux_clean mg (sediment_flux s) →
  uniform_spacing mg dx = true → at_most_four_neighbours mg = true →
  0 < dx → 0 < D → 0 <= dt → dt <= (2 # 10) * dx * dx / D →
  (∀ n, (n < number_of_nodes mg)%nat →
        lo <= topographic__elevation s !!! n ∧ topographic__elevation s !!! n <= hi) →
  ∃ s', run k mg D dt s = Ok s' ∧
    ∀ n, (n < number_of_nodes mg)%nat →
         lo <= topographic__elevation s' !!! n ∧ topographic__elevation s' !!! n <= hi.
Proof.
  intros Hwf Hfit Hcl Hu H4 Hdx HD Hdt Hb Hz.
  destruct (run_in_range k mg D dt dx lo hi s Hwf Hfit Hcl Hu H4 Hdx HD Hdt Hb Hz)
    as (s' & Hrun & _ & Hr).
  eauto.
Qed.

(** X10.  Within the stability bound the step preserves order: if one field
    is nowhere above another, it is nowhere above it after a step. *)
Theorem step_is_monotone mg (D dt dx : Q) s1 s2 :
  well_formed mg = true → fits mg s1 → fits mg s2 →
  flux_clean mg (sediment_flux s1) → flux_clean mg (sediment_flux s2) →
  uniform_spacing mg dx = true → at_most_four_neighbours mg = true →
  0 < dx → 0 < D → 0 <= dt → dt <= (2 # 10) * dx * dx / D →
  (∀ n, (n < number_of_nodes mg)%nat →
        topographic__elevation s1 !!! n <= topographic__elevation s2 !!! n) →
  ∃ s1' s2', step mg D dt s1 = Ok s1' ∧ step mg D dt s2 = Ok s2' ∧
    ∀ n, (n < number_of_nodes mg)%nat →
         topographic__elevation s1' !!! n <= topographic__elevation s2' !!! n.
Proof.
  intros Hwf Hf1 Hf2 Hc1 Hc2 Hu H4 Hdx HD Hdt Hb Hle.
  destruct (step_closed_form mg D dt s1 Hwf Hf1 Hc1) as (t1 & E1 & _ & _ & _ & H1).
  destruct (step_closed_form mg D dt s2 Hwf Hf2 Hc2) as (t2 & E2 & _ & _ & _ & H2).
  exists t1, t2. repeat (split; [assumption|]).
  set (z1 := topographic__elevation s1) in *.
  set (z2 := topographic__elevation s2) in *.
  destruct Hf1 as [Hz1 _]. destruct Hf2 as [Hz2 _]. fold z1 in Hz1. fold z2 in Hz2.
  set (w := zip_with (λ x y, x - y) z2 z1).
  assert (Hw : ∀ n, (n < number_of_nodes mg)%nat → w !!! n == z2 !!! n - z1 !!! n).
  { intros n Hn. unfold w. rewrite lookup_total_zip_with_lt by lia. reflexivity. }
  intros n Hn. rewrite (H1 n Hn), (H2 n Hn).
  rewrite (diffused_combine mg D dt 1 1 0 z1 w z2 Hwf); [| |exact Hn].
  - destruct (diffused_keeps_range mg D dt dx 0 (magnitude w) w Hwf Hu H4 Hdx HD Hdt Hb)
      with (n := n) as [H0 _]; [|exact Hn|lra].
    intros m Hm. split.
    + rewrite (Hw m Hm). specialize (Hle m Hm). lra.
    + eapply Qle_trans; [apply Qle_Qabs|]. apply magnitude_upper.
      unfold w. rewrite length_zip_with. lia.
  - intros m Hm. rewrite (Hw m Hm). ring.
Qed.

Lemma link_sum_ext (F G : Link Q → Q) (ls : list (Link Q)) :
  (∀ l, l ∈ ls → F l == G l) → link_sum F ls == link_sum G ls.
Proof.
  induction ls as [|l ls IH]; intros HFG; cbn [link_sum]; [reflexivity|].
  rewrite IH by (intros; apply HFG; right; assumption).
  rewrite (HFG l) by left. reflexivity.
Qed.

(** Summed over a duplicate-free list of nodes, the signed sums leave what
    the links carry across the edge of the list. *)
Lemma sum_at_signed_sum (F : Link Q → Q) (ls : list (Link Q)) (ns : list nat) :
  NoDup ns →
  (∀ l, l ∈ ls → node_at_link_tail l ≠ node_at_link_head l) →
  sum_at (λ n, signed_sum n F ls) ns ==
  link_sum (λ l, F l * ((if decide (node_at_link_tail l ∈ ns) then 1 else 0) -
                        (if decide (node_at_link_head l ∈ ns) then 1 else 0))) ls.
Proof.
  intros Hnd. induction ls as [|l ls IH]; intros Hne; cbn [signed_sum link_sum].
  - apply sum_at_zero.
  - rewrite sum_at_plus, IH by (intros; apply Hne; right; assumption).
    rewrite (sum_at_contribution (F l) _ _ ns (Hne l ltac:(left)) Hnd).
    repeat destruct (decide _); ring.
Qed.

(** The sum over the core nodes after the update. *)
Lemma diffused_sum mg (D dt dx : Q) z :
  well_formed mg = true → uniform_spacing mg dx = true →
  sum_at (diffused mg D dt z) (core_nodes mg) ==
  sum_at (λ n, z !!! n) (core_nodes mg) - dt * outflow mg D z / (dx * dx).
Proof.
  intros Hwf Hu.
  set (G := λ l : Link Q, unit_flux mg D z l * width_of_face l).
  rewrite (sum_at_ext _ (λ n, z !!! n + (- dt / (dx * dx)) * signed_sum n G (links mg))).
  - rewrite sum_at_plus, sum_at_scale, sum_at_signed_sum.
    + subst G. cbv beta. unfold outflow, Qdiv. ring.
    + apply NoDup_where.
    + intros l Hl. apply (well_formed_elem mg l Hwf Hl).
  - intros n Hn. cbv beta.
    assert (Hlt : (n < number_of_nodes mg)%nat).
    { eapply (proj1 (Forall_forall _ _) (core_nodes_bound mg)), Hn. }
    assert (Hc : is_core (status_of mg n) = true)
      by (apply core_nodes_status; assumption).
    unfold diffused, divergence. rewrite Hc.
    destruct (uniform_spacing_cell mg dx n Hu Hc) as (a & -> & Ha).
    fold G. rewrite Ha. unfold Qdiv. ring.
Qed.

(** X11.  Budget of the core nodes: on a grid of uniform spacing, one step
    changes the sum of the elevations over the core nodes by exactly minus
    [dt] times the net flux that leaves the core through its edge, per unit
    cell area. *)
Theorem step_budget mg (D dt dx : Q) s :
  well_formed mg = true → fits mg s → flux_clean mg (sediment_flux s) →
  uniform_spacing mg dx = true →
  ∃ s', step mg D dt s = Ok s' ∧
    sum_at (λ n, topographic__elevation s' !!! n) (core_nodes mg) ==
    sum_at (λ n, topographic__elevation s !!! n) (core_nodes mg)
    - dt * outflow mg D (topographic__elevation s) / (dx * dx).
Proof.
  intros Hwf Hfit Hcl Hu.
  destruct (step_closed_form mg D dt s Hwf Hfit Hcl) as (s' & Hs & _ & _ & _ & Hz).
  exists s'. split; [exact Hs|].
  rewrite <- (diffused_sum mg D dt dx _ Hwf Hu).
  apply sum_at_ext. intros n Hn. apply Hz.
  eapply (proj1 (Forall_forall _ _) (core_nodes_bound mg)), Hn.
Qed.

Lemma outflow_closed mg (D : Q) z :
  all_boundaries_closed mg = true → outflow mg D z == 0.
Proof.
  intros Hbc. unfold outflow.
  rewrite (link_sum_ext _ (λ _, 0)).
  - induction (links mg) as [|l ls IH]; cbn [link_sum]; [reflexivity|]. rewrite IH. ring.
  - intros l _. unfold unit_flux.
    destruct (link_is_active mg l) eqn:Ha; [|ring].
    unfold link_is_active in Ha.
    pose proof (all_boundaries_closed_status mg (node_at_link_tail l) Hbc) as Ht.
    pose proof (all_boundaries_closed_status mg (node_at_link_head l) Hbc) as Hh.
    assert (Hct : node_at_link_tail l ∈ core_nodes mg).
    { apply core_status_elem.
      destruct (status_of mg (node_at_link_tail l)),
               (status_of mg (node_at_link_head l)); simpl in *; congruence. }
    assert (Hch : node_at_link_head l ∈ core_nodes mg).
    { apply core_status_elem.
      destruct (status_of mg (node_at_link_tail l)),
               (status_of mg (node_at_link_head l)); simpl in *; congruence. }
    destruct (decide (node_at_link_tail l ∈ core_nodes mg)); [|contradiction].
    destruct (decide (node_at_link_head l ∈ core_nodes mg)); [|contradiction].
    ring.
Qed.

(** X12.  With every boundary node closed, the sum of the elevations over
    the core nodes is the same after any number of steps. *)
Theorem run_conserves_sum (k : nat) mg (D dt dx : Q) s :
  well_formed mg = true → fits mg s → flux_clean mg (sediment_flux s) →
  uniform_spacing mg dx = true → all_boundaries_closed mg = true →
  ∃ s', run k mg D dt s = Ok s' ∧
    sum_at (λ n, topographic__elevation s' !!! n) (core_nodes mg) ==
    sum_at (λ n, topographic__elevation s !!! n) (core_nodes mg).
Proof.
  intros Hwf Hfit Hcl Hu Hbc. revert s Hfit Hcl.
  induction k as [|k IH]; intros s Hfit Hcl; cbn [run].
  - exists s. split; reflexivity.
  - destruct (step_closed_form mg D dt s Hwf Hfit Hcl) as (s1 & -> & Hf1 & Hc1 & _ & H1).
    simpl. destruct (IH s1 Hf1 Hc1) as (s' & Hrun & Hsum).
    exists s'. split; [exact Hrun|]. rewrite Hsum.
    rewrite (sum_at_ext _ (diffused mg D dt (topographic__elevation s))).
    + rewrite (diffused_sum mg D dt dx _ Hwf Hu), (outflow_closed mg D _ Hbc).
      unfold Qdiv. ring.
    + intros n Hn. apply H1.
      eapply (proj1 (Forall_forall _ _) (core_nodes_bound mg)), Hn.
Qed.
End StabilityFacts.

(** ** The fault scarp *)

Section ScarpFacts.
Local Open Scope Q_scope.

(** What the uplift leaves in the elevation array, for coordinate arrays of
    the length of the elevation array. *)
Lemma earthquake_spec (xs ys z : list Q) :
  length xs = length z → length ys = length z →
  ∃ z', earthquake xs ys z = Ok z' ∧ length z' = length z ∧
    ∀ n, (n < length z)%nat →
      (50 + (1 # 4) * xs !!! n < ys !!! n →
       z' !!! n == z !!! n + (10 + (1 # 100) * xs !!! n)) ∧
      (ys !!! n <= 50 + (1 # 4) * xs !!! n → z' !!! n = z !!! n).
Proof.
  intros Hx Hy. unfold earthquake.
  set (mask := zip_with (λ y f, negb (Qle_bool y f)) ys (fault_trace_y xs)).
  assert (Hml : length mask = length z).
  { unfold mask, fault_trace_y. rewrite length_zip_with, length_fmap. lia. }
  assert (Hmask : ∀ n, (n < length z)%nat →
            mask !! n = Some (negb (Qle_bool (ys !!! n) (fadd 50 (fmul (1 # 4) (xs !!! n)))))).
  { intros n Hn. unfold mask, fault_trace_y.
    rewrite lookup_zip_with, list_lookup_fmap.
    rewrite (list_lookup_lookup_total_lt ys n) by lia.
    rewrite (list_lookup_lookup_total_lt xs n) by lia. reflexivity. }
  assert (Hup : Forall (λ i, (i < length z)%nat) (upthrown_nodes xs ys)).
  { unfold upthrown_nodes. fold mask. rewrite <- Hml. apply where_bound. }
  destruct (take_total z _ Hup) as [zu Hzu]. rewrite Hzu. simpl.
  destruct (take_total xs (upthrown_nodes xs ys)) as [xu Hxu];
    [rewrite Hx; exact Hup|]. rewrite Hxu. simpl.
  destruct (put_total z (upthrown_nodes xs ys)
              (zip_with fadd zu (map (λ x, fadd 10 (fmul (1 # 100) x)) xu)))
    as [z' Hz']; [|exact Hup|].
  { rewrite length_zip_with, length_fmap,
      (take_length _ _ _ Hzu), (take_length _ _ _ Hxu). lia. }
  exists z'. split; [exact Hz'|]. split; [eapply put_length, Hz'|].
  intros n Hn.
  assert (Hin : n ∈ upthrown_nodes xs ys ↔ 50 + (1 # 4) * xs !!! n < ys !!! n).
  { unfold upthrown_nodes. fold mask. rewrite elem_of_where, (Hmask n Hn).
    rewrite fadd_Q, fmul_Q.
    destruct (Qle_bool (ys !!! n) (50 + (1 # 4) * xs !!! n)) eqn:Hb; simpl.
    - apply Qle_bool_iff in Hb. split; [discriminate | lra].
    - split; [intros _ | reflexivity].
      apply Qnot_le_lt. intros Hle. apply Qle_bool_iff in Hle. congruence. }
  split.
  - intros Hlt. apply Hin in Hlt. apply list_elem_of_lookup_1 in Hlt as [j Hj].
    destruct (put_lookup_in _ _ _ _ _ _ (NoDup_where _) Hz' Hj) as [Hv _].
    rewrite lookup_zip_with, (take_lookup _ _ _ _ _ Hzu Hj) in Hv.
    rewrite list_lookup_fmap, (take_lookup _ _ _ _ _ Hxu Hj) in Hv.
    rewrite (list_lookup_lookup_total_lt z n) in Hv by lia.
    rewrite (list_lookup_lookup_total_lt xs n) in Hv by lia.
    simpl in Hv. rewrite (list_lookup_total_correct _ _ _ Hv).
    rewrite !fadd_Q, fmul_Q. reflexivity.
  - intros Hle. apply list_lookup_total_correct.
    rewrite (put_lookup_notin _ _ _ _ n Hz').
    + apply list_lookup_lookup_total_lt. lia.
    + rewrite Hin. lra.
Qed.
Lemma x_of_node_lookup (nrows ncols : nat) (dx : Q) (n : nat) :
  (n < nrows * ncols)%nat →
  x_of_node nrows ncols dx !!! n == inject_Z (Z.of_nat (n mod ncols)) * dx.
Proof.
  intros Hn. unfold x_of_node.
  rewrite (list_lookup_total_correct _ n (fmul (inject_Z (Z.of_nat (n mod ncols))) dx)).
  - apply fmul_Q.
  - rewrite list_lookup_fmap, lookup_seq_lt by exact Hn. reflexivity.
Qed.

Lemma y_of_node_lookup (nrows ncols : nat) (dx : Q) (n : nat) :
  (n < nrows * ncols)%nat →
  y_of_node nrows ncols dx !!! n == inject_Z (Z.of_nat (n / ncols)) * dx.
Proof.
  intros Hn. unfold y_of_node.
  rewrite (list_lookup_total_correct _ n (fmul (inject_Z (Z.of_nat (n / ncols))) dx)).
  - apply fmul_Q.
  - rewrite list_lookup_fmap, lookup_seq_lt by exact Hn. reflexivity.
Qed.

Lemma raster_number_of_nodes (nrows ncols : nat) (dx : Q) :
  number_of_nodes (RasterModelGrid nrows ncols dx) = (nrows * ncols)%nat.
Proof.
  unfold number_of_nodes. cbn [status_at_node RasterModelGrid].
  rewrite length_fmap, length_seq. reflexivity.
Qed.

Lemma earthquake_on_raster (nrows ncols : nat) (dx : Q) :
  ∃ z, earthquake (x_of_node nrows ncols dx) (y_of_node nrows ncols dx)
                  (add_zeros_at_node (RasterModelGrid nrows ncols dx)) = Ok z ∧
    length z = (nrows * ncols)%nat ∧
    ∀ n, (n < nrows * ncols)%nat →
      let x := inject_Z (Z.of_nat (n mod ncols)) * dx in
      let y := inject_Z (Z.of_nat (n / ncols)) * dx in
      (50 + (1 # 4) * x < y → z !!! n == 10 + (1 # 100) * x) ∧
      (y <= 50 + (1 # 4) * x → z !!! n == 0).
Proof.
  set (z0 := add_zeros_at_node (RasterModelGrid nrows ncols dx)).
  assert (Hz0 : length z0 = (nrows * ncols)%nat).
  { unfold z0, add_zeros_at_node. rewrite length_replicate. apply raster_number_of_nodes. }
  destruct (earthquake_spec (x_of_node nrows ncols dx) (y_of_node nrows ncols dx) z0)
    as (z & Hz & Hlen & Hval).
  { unfold x_of_node. rewrite length_fmap, length_seq. lia. }
  { unfold y_of_node. rewrite length_fmap, length_seq. lia. }
  exists z. split; [exact Hz|]. split; [lia|].
  intros n Hn x y. rewrite <- Hz0 in Hn.
  destruct (Hval n Hn) as [Hup Hdown]. rewrite Hz0 in Hn.
  assert (H0 : z0 !!! n = 0).
  { unfold z0, add_zeros_at_node. apply lookup_total_replicate_2.
    rewrite raster_number_of_nodes. exact Hn. }
  rewrite H0 in Hup, Hdown.
  rewrite (x_of_node_lookup nrows ncols dx n Hn) in Hup, Hdown.
  rewrite (y_of_node_lookup nrows ncols dx n Hn) in Hup, Hdown.
  fold x in Hup, Hdown. fold y in Hup, Hdown. split.
  - intros Hlt. rewrite (Hup Hlt). ring.
  - intros Hle. rewrite (Hdown Hle). reflexivity.
Qed.

(** X13.  The earthquake in exact arithmetic, on a raster of at least
    3 x 3 nodes and any positive spacing: every node north of the fault
    trace [y = 50 + 0.25 x] is raised from 0 to [10 + 0.01 x], every other
    node stays at 0, and no index is out of range.  Coordinates, trace and
    test are rational here; in binary64 a node whose coordinates round onto
    the trace can fall on its other side. *)
Theorem earthquake_raises_north_of_trace (nrows ncols : nat) (dx : Q) (n : nat) :
  (3 ≤ nrows)%nat → (3 ≤ ncols)%nat → 0 < dx →
  (n < nrows * ncols)%nat →
  ∃ z, earthquake (x_of_node nrows ncols dx) (y_of_node nrows ncols dx)
                  (add_zeros_at_node (RasterModelGrid nrows ncols dx)) = Ok z ∧
    length z = (nrows * ncols)%nat ∧
    let x := inject_Z (Z.of_nat (n mod ncols)) * dx in
    let y := inject_Z (Z.of_nat (n / ncols)) * dx in
    (50 + (1 # 4) * x < y → z !!! n == 10 + (1 # 100) * x) ∧
    (y <= 50 + (1 # 4) * x → z !!! n == 0).
Proof.
  intros _ _ _ Hn.
  destruct (earthquake_on_raster nrows ncols dx) as (z & Hz & Hlen & Hval).
  exists z. split; [exact Hz|]. split; [exact Hlen|]. exact (Hval n Hn).
Qed.

Lemma courant_dt_Q (dx D : Q) : courant_dt dx D == (2 # 10) * dx * dx / D.
Proof. unfold courant_dt. rewrite fdiv_Q, !fmul_Q. reflexivity. Qed.

(** X14.  The notebook as a whole in exact arithmetic, for a raster of at
    least 3 x 3 nodes, any positive spacing and diffusivity and any number
    of passes through the loop: it runs to the end without a fault, and
    every elevation stays between 0 and the highest point of the scarp,
    [10 + 0.01 * x] at the last column. *)
Theorem fault_scarp_stays_in_range (nrows ncols : nat) (dx D : Q) (k : nat) :
  (3 ≤ nrows)%nat → (3 ≤ ncols)%nat → 0 < dx → 0 < D →
  ∃ s, fault_scarp nrows ncols dx D k = Ok s ∧
    length (topographic__elevation s) = (nrows * ncols)%nat ∧
    ∀ n, (n < nrows * ncols)%nat →
      0 <= topographic__elevation s !!! n ∧
      topographic__elevation s !!! n
        <= 10 + (1 # 100) * (inject_Z (Z.of_nat (ncols - 1)) * dx).
Proof.
  intros _ _ Hdx HD. unfold fault_scarp.
  destruct (earthquake_on_raster nrows ncols dx) as (z & -> & Hlen & Hval). simpl.
  set (mg := set_closed_boundaries_at_grid_edges nrows ncols true false true false
               (RasterModelGrid nrows ncols dx)).
  destruct (raster_is_regular nrows ncols dx true false true false) as (Hwf & Hu & H4).
  fold mg in Hwf, Hu, H4.
  assert (HN : number_of_nodes mg = (nrows * ncols)%nat).
  { unfold mg, number_of_nodes. cbn [set_closed_boundaries_at_grid_edges status_at_node].
    rewrite length_imap. apply raster_number_of_nodes. }
  assert (Hfit : fits mg (mkState z (add_zeros_at_link mg))).
  { split; simpl; [lia|]. apply length_replicate. }
  assert (Hdt : 0 <= courant_dt dx D ∧ courant_dt dx D <= (2 # 10) * dx * dx / D).
  { rewrite courant_dt_Q. split; [|lra].
    apply Qle_shift_div_l; [exact HD|]. rewrite Qmult_0_l.
    apply Qmult_le_0_compat; [|lra]. apply Qmult_le_0_compat; lra. }
  destruct Hdt as [Hdt0 Hdt1].
  destruct (run_in_range k mg D (courant_dt dx D) dx 0
              (10 + (1 # 100) * (inject_Z (Z.of_nat (ncols - 1)) * dx))
              (mkState z (add_zeros_at_link mg)) Hwf Hfit (flux_clean_add_zeros mg)
              Hu H4 Hdx HD Hdt0 Hdt1) as (s & Hrun & [Hzl _] & Hr).
  - intros n Hn. rewrite HN in Hn. simpl.
    destruct (Hval n Hn) as [Hup Hdown].
    assert (Hcol : 0 <= inject_Z (Z.of_nat (n mod ncols)) * dx ∧
                   inject_Z (Z.of_nat (n mod ncols)) * dx
                     <= inject_Z (Z.of_nat (ncols - 1)) * dx).
    { assert (Hm : (n mod ncols <= ncols - 1)%nat).
      { assert (ncols ≠ 0%nat) by (intros ->; lia).
        pose proof (Nat.mod_upper_bound n ncols ltac:(assumption)). lia. }
      split.
      - apply Qmult_le_0_compat; [|lra].
        change 0 with (inject_Z 0). rewrite <- Zle_Qle. lia.
      - apply Qmult_le_compat_r; [|lra]. rewrite <- Zle_Qle. lia. }
    destruct (Qlt_le_dec (50 + (1 # 4) * (inject_Z (Z.of_nat (n mod ncols)) * dx))
                (inject_Z (Z.of_nat (n / ncols)) * dx)) as [Hlt|Hle].
    + rewrite (Hup Hlt). lra.
    + rewrite (Hdown Hle). lra.
  - exists s. split; [exact Hrun|]. split; [lia|].
    intros n Hn. apply Hr. lia.
Qed.
End ScarpFacts.

(** ** Counting the nodes and links of a raster *)

Section RasterCounts.
Context {A : Type} `{Scalar A}.

Lemma length_raster_rows (nrows ncols : nat) (dx : A) (a m : nat) :
  length (flat_map (λ r, horizontal_links ncols dx r ++
                         (if (S r <? nrows)%nat then vertical_links ncols dx r else []))
                   (seq a m)) =
  m * (ncols - 1) + (Nat.min (a + m) (nrows - 1) - Nat.min a (nrows - 1)) * ncols.
Proof.
  revert a. induction m as [|m IH]; intros a; cbn [seq flat_map].
  - replace (a + 0) with a by lia. cbn [length]. lia.
  - rewrite !length_app, IH. unfold horizontal_links.
    rewrite length_fmap, length_seq.
    replace (a + S m) with (S a + m) by lia.
    destruct (S a <? nrows)%nat eqn:E.
    + apply Nat.ltb_lt in E. unfold vertical_links. rewrite length_fmap, length_seq.
      rewrite (Nat.min_l a) by lia. rewrite (Nat.min_l (S a)) by lia.
      assert (Hge : S a ≤ Nat.min (S a + m) (nrows - 1)) by lia.
      remember (Nat.min (S a + m) (nrows - 1)) as X. nia.
    + apply Nat.ltb_ge in E. cbn [length].
      rewrite (Nat.min_r a) by lia. rewrite (Nat.min_r (S a)) by lia.
      rewrite (Nat.min_r (S a + m)) by lia. nia.
Qed.

Lemma on_perimeter_false (nrows ncols n : nat) :
  on_perimeter nrows ncols n = false ↔
  n / ncols ≠ 0 ∧ S (n / ncols) ≠ nrows ∧ n mod ncols ≠ 0 ∧ S (n mod ncols) ≠ ncols.
Proof.
  unfold on_perimeter. rewrite !orb_false_iff, !Nat.eqb_neq. tauto.
Qed.

Lemma raster_core_iff (nrows ncols : nat) (dx : A) (right top left bottom : bool) (n : nat) :
  n ∈ core_nodes (set_closed_boundaries_at_grid_edges nrows ncols right top left bottom
                    (RasterModelGrid nrows ncols dx)) ↔
  n < nrows * ncols ∧ on_perimeter nrows ncols n = false.
Proof.
  rewrite elem_of_core_nodes.
  cbn [set_closed_boundaries_at_grid_edges status_at_node RasterModelGrid].
  rewrite list_lookup_imap, list_lookup_fmap. split.
  - intros Hst. destruct (seq 0 (nrows * ncols) !! n) as [m|] eqn:Hm; [|discriminate].
    apply lookup_seq in Hm as [-> Hlt]. split; [exact Hlt|]. cbn in Hst.
    destruct (on_perimeter nrows ncols n); [|reflexivity].
    repeat match type of Hst with context [if ?b then _ else _] => destruct b end;
      discriminate.
  - intros [Hlt Hp]. rewrite lookup_seq_lt by exact Hlt.
    cbn -[Nat.eqb Nat.div Nat.modulo]. rewrite Hp.
    apply on_perimeter_false in Hp as (H1 & H2 & H3 & H4).
    apply Nat.eqb_neq in H1, H2, H3, H4. rewrite ?H1, ?H2, ?H3, ?H4.
    destruct bottom, top, left, right; reflexivity.
Qed.

Lemma raster_core_count (nrows ncols : nat) (dx : A) (right top left bottom : bool) :
  length (core_nodes (set_closed_boundaries_at_grid_edges nrows ncols right top left bottom
                        (RasterModelGrid nrows ncols dx)))
  = (nrows - 2) * (ncols - 2).
Proof.
  set (w := ncols - 2).
  set (φ := λ m, (m / w + 1) * ncols + m mod w + 1).
  transitivity (length (φ <$> seq 0 ((nrows - 2) * w)));
    [|rewrite length_fmap, length_seq; reflexivity].
  apply Permutation_length, NoDup_Permutation.
  - apply NoDup_where.
  - apply NoDup_fmap_2_strong; [|apply NoDup_seq].
    intros m1 m2 H1 H2 E. apply elem_of_seq in H1, H2.
    assert (Hw : w ≠ 0) by (intros Hw0; rewrite Hw0 in H1; lia).
    pose proof (Nat.mod_upper_bound m1 w Hw). pose proof (Nat.mod_upper_bound m2 w Hw).
    unfold φ in E.
    destruct (Nat.div_mod_unique ncols (m1 / w + 1) (m2 / w + 1)
                (m1 mod w + 1) (m2 mod w + 1)) as [Eq Er]; [lia | lia | lia |].
    rewrite (Nat.div_mod m1 w Hw), (Nat.div_mod m2 w Hw). 
    assert (m1 / w = m2 / w) as -> by lia. assert (m1 mod w = m2 mod w) as -> by lia.
    reflexivity.
  - intros n. rewrite raster_core_iff, on_perimeter_false, list_elem_of_fmap. split.
    + intros (Hlt & Hr0 & Hr1 & Hc0 & Hc1).
      assert (Hnc : ncols ≠ 0) by (intros ->; lia).
      pose proof (Nat.mod_upper_bound n ncols Hnc) as Hc.
      assert (Hr : n / ncols < nrows).
      { apply Nat.Div0.div_lt_upper_bound. lia. }
      pose proof (Nat.div_mod n ncols Hnc) as En.
      remember (n / ncols) as r. remember (n mod ncols) as c.
      assert (Hw : w ≠ 0) by (unfold w; lia).
      exists ((r - 1) * w + (c - 1)).
      assert (Hd : (r - 1) = ((r - 1) * w + (c - 1)) / w).
      { apply (Nat.div_unique _ w (r - 1) (c - 1)); unfold w; lia. }
      assert (Hm : (c - 1) = ((r - 1) * w + (c - 1)) mod w).
      { apply (Nat.mod_unique _ w (r - 1) (c - 1)); unfold w; lia. }
      split.
      * unfold φ. rewrite <- Hd, <- Hm.
        replace (r - 1 + 1) with r by lia. lia.
      * apply elem_of_seq. split; [apply Nat.le_0_l|]. clear Hd Hm Heqr Heqc.
        assert (r - 1 < nrows - 2) by lia. assert (c - 1 < w) by (unfold w; lia). nia.
    + intros (m & -> & Hm). apply elem_of_seq in Hm.
      assert (Hw : w ≠ 0) by (intros Hw0; rewrite Hw0 in Hm; lia).
      pose proof (Nat.mod_upper_bound m w Hw) as Hc.
      assert (Hr : m / w < nrows - 2).
      { apply Nat.Div0.div_lt_upper_bound. lia. }
      unfold φ.
      assert (Hd : m / w + 1 = ((m / w + 1) * ncols + m mod w + 1) / ncols).
      { apply (Nat.div_unique _ ncols (m / w + 1) (m mod w + 1)); unfold w in *; lia. }
      assert (Hmo : m mod w + 1 = ((m / w + 1) * ncols + m mod w + 1) mod ncols).
      { apply (Nat.mod_unique _ ncols (m / w + 1) (m mod w + 1)); unfold w in *; lia. }
      rewrite <- Hd, <- Hmo. unfold w in *. repeat split; try lia. nia.
Qed.

(** X15.  The sizes of a raster of [nrows] by [ncols] nodes, at least
    3 x 3, whichever of its edges are closed: [nrows * ncols] nodes,
    [nrows * (ncols - 1) + (nrows - 1) * ncols] links, and
    [(nrows - 2) * (ncols - 2)] core nodes; closing edges does not change
    the number of core nodes. *)
Theorem raster_counts (nrows ncols : nat) (dx : A) (right top left bottom : bool) :
  3 ≤ nrows → 3 ≤ ncols →
  let mg := set_closed_boundaries_at_grid_edges nrows ncols right top left bottom
              (RasterModelGrid nrows ncols dx) in
  number_of_nodes mg = nrows * ncols ∧
  number_of_links mg = nrows * (ncols - 1) + (nrows - 1) * ncols ∧
  length (core_nodes mg) = (nrows - 2) * (ncols - 2) ∧
  length (add_zeros_at_node mg) = nrows * ncols.
Proof.
  intros _ _ mg.
  assert (HN : number_of_nodes mg = nrows * ncols).
  { unfold mg, number_of_nodes.
    cbn [set_closed_boundaries_at_grid_edges status_at_node RasterModelGrid].
    rewrite length_imap, length_fmap, length_seq. reflexivity. }
  split; [exact HN|]. split; [|split].
  - unfold mg, number_of_links.
    cbn [set_closed_boundaries_at_grid_edges links RasterModelGrid].
    unfold raster_links. rewrite length_raster_rows.
    rewrite Nat.min_0_l, Nat.sub_0_r. cbn [Nat.add].
    rewrite Nat.min_r by lia. reflexivity.
  - apply raster_core_count.
  - unfold add_zeros_at_node. rewrite length_replicate. exact HN.
Qed.
End RasterCounts.

(** ** The boundary conditions of the component tutorial *)

Section EdgeFacts.
Context {T : Type}.
Implicit Types (a : list T) (idx : list nat).

Lemma put_scalar_spec a idx (v : T) :
  Forall (λ i, i < length a) idx →
  put_scalar a idx v = Ok (imap (λ n x, if decide (n ∈ idx) then v else x) a).
Proof.
  unfold put_scalar. revert a. induction idx as [|i idx IH]; intros a Hb.
  - cbn [length replicate put]. f_equal. apply list_eq. intros n.
    rewrite list_lookup_imap. destruct (a !! n); reflexivity.
  - inversion Hb as [|? ? Hi Hb']; subst. cbn [length replicate put].
    destruct (decide (i < length a)) as [_|Hn]; [|contradiction].
    rewrite IH by (rewrite length_insert; exact Hb'). f_equal.
    apply list_eq. intros n. rewrite !list_lookup_imap.
    destruct (decide (n = i)) as [->|Hne].
    + rewrite list_lookup_insert_eq by exact Hi.
      destruct (a !! i) as [x|] eqn:E; [|apply lookup_ge_None in E; lia].
      cbn. rewrite (decide_True (P := i ∈ i :: idx)) by (left).
      destruct (decide (i ∈ idx)); reflexivity.
    + rewrite list_lookup_insert_ne by congruence.
      destruct (a !! n) as [x|]; [|reflexivity]. cbn.
      destruct (decide (n ∈ idx)) as [Hin|Hnin].
      * rewrite decide_True by (right; exact Hin). reflexivity.
      * rewrite decide_False; [reflexivity|].
        intros Hc. apply elem_of_cons in Hc as [?|?]; [congruence|contradiction].
Qed.

Lemma put_scalar_raises a idx (v : T) :
  Exists (λ i, length a ≤ i) idx → put_scalar a idx v = Raise IndexError.
Proof.
  unfold put_scalar. revert a. induction idx as [|i idx IH]; intros a Hex.
  - inversion Hex.
  - cbn [length replicate put]. destruct (decide (i < length a)) as [Hi|Hi]; [|reflexivity].
    apply IH. rewrite length_insert. inversion Hex; subst; [lia | assumption].
Qed.
End EdgeFacts.

Section BoundaryFacts.
Context {A : Type} `{Scalar A}.

Lemma elem_of_left_edge (nrows ncols n : nat) :
  0 < ncols →
  n ∈ nodes_at_left_edge nrows ncols ↔ n < nrows * ncols ∧ n mod ncols = 0.
Proof.
  intros Hc. unfold nodes_at_left_edge. rewrite list_elem_of_fmap. split.
  - intros (r & -> & Hr). apply elem_of_seq in Hr. split; [nia|].
    apply Nat.Div0.mod_mul.
  - intros [Hlt Hm]. exists (n / ncols). split.
    + pose proof (Nat.div_mod n ncols ltac:(lia)). lia.
    + apply elem_of_seq. split; [lia|]. cbn [Nat.add].
      apply Nat.Div0.div_lt_upper_bound. lia.
Qed.

Lemma elem_of_right_edge (nrows ncols n : nat) :
  0 < ncols →
  n ∈ nodes_at_right_edge nrows ncols ↔ n < nrows * ncols ∧ S (n mod ncols) = ncols.
Proof.
  intros Hc. unfold nodes_at_right_edge. rewrite list_elem_of_fmap. split.
  - intros (r & -> & Hr). apply elem_of_seq in Hr. split; [nia|].
    rewrite Nat.add_comm, Nat.Div0.mod_add, Nat.mod_small by lia. lia.
  - intros [Hlt Hm]. exists (n / ncols). split.
    + pose proof (Nat.div_mod n ncols ltac:(lia)). lia.
    + apply elem_of_seq. split; [lia|]. cbn [Nat.add].
      apply Nat.Div0.div_lt_upper_bound. lia.
Qed.

Lemma elem_of_top_edge (nrows ncols n : nat) :
  0 < nrows → 0 < ncols →
  n ∈ nodes_at_top_edge nrows ncols ↔ n < nrows * ncols ∧ S (n / ncols) = nrows.
Proof.
  intros Hr Hc. unfold nodes_at_top_edge. rewrite elem_of_seq. split.
  - intros [Hlo Hhi]. split; [nia|].
    assert (n / ncols = nrows - 1); [|lia].
    symmetry. apply (Nat.div_unique n ncols (nrows - 1) (n - (nrows - 1) * ncols)); lia.
  - intros [Hlt Hd]. pose proof (Nat.div_mod n ncols ltac:(lia)) as E.
    pose proof (Nat.mod_upper_bound n ncols ltac:(lia)).
    replace (nrows - 1) with (n / ncols) by lia. split; lia.
Qed.

Lemma elem_of_bottom_edge (nrows ncols n : nat) :
  0 < nrows → 0 < ncols →
  n ∈ nodes_at_bottom_edge nrows ncols ↔ n < nrows * ncols ∧ n / ncols = 0.
Proof.
  intros Hr Hc. unfold nodes_at_bottom_edge. rewrite elem_of_seq. split.
  - intros [_ Hhi]. split; [nia|]. apply Nat.div_small. lia.
  - intros [_ Hd]. apply Nat.div_small_iff in Hd; lia.
Qed.

Lemma edge_bound (nrows ncols : nat) (edge : list nat) :
  (∀ n, n ∈ edge → n < nrows * ncols) →
  ∀ s : list NodeStatus, length s = nrows * ncols → Forall (λ i, i < length s) edge.
Proof.
  intros Hb s Hs. apply Forall_forall. intros n Hn. rewrite Hs. apply Hb, Hn.
Qed.

(** X16.  On a fresh raster of at least 3 x 3 nodes the two loops of the
    component tutorial, which close the left and right edges and then set
    the top and bottom edges to fixed value, give the grid of the
    fault-scarp tutorial's
    [set_closed_boundaries_at_grid_edges(True, False, True, False)]: the
    second loop returns the four corners to fixed value. *)
Theorem component_tutorial_boundaries_are_fault_scarp_boundaries
    (nrows ncols : nat) (dx : A) :
  3 ≤ nrows → 3 ≤ ncols →
  component_tutorial_boundaries nrows ncols (RasterModelGrid nrows ncols dx) =
  Ok (set_closed_boundaries_at_grid_edges nrows ncols true false true false
        (RasterModelGrid nrows ncols dx)).
Proof.
  intros Hr3 Hc3. assert (Hr : 0 < nrows) by lia. assert (Hc : 0 < ncols) by lia.
  unfold component_tutorial_boundaries.
  set (s0 := status_at_node (RasterModelGrid nrows ncols dx)).
  assert (Hs0 : length s0 = nrows * ncols).
  { unfold s0. cbn [status_at_node RasterModelGrid].
    rewrite length_fmap, length_seq. reflexivity. }
  rewrite put_scalar_spec
    by (apply (edge_bound nrows ncols); [intros n Hn; apply elem_of_left_edge in Hn; tauto | exact Hs0]).
  cbn [mbind result_bind].
  rewrite put_scalar_spec
    by (apply (edge_bound nrows ncols);
        [intros n Hn; apply elem_of_right_edge in Hn; tauto
        | rewrite length_imap; exact Hs0]).
  cbn [mbind result_bind].
  rewrite put_scalar_spec
    by (apply (edge_bound nrows ncols);
        [intros n Hn; apply elem_of_top_edge in Hn; tauto
        | rewrite !length_imap; exact Hs0]).
  cbn [mbind result_bind].
  rewrite put_scalar_spec
    by (apply (edge_bound nrows ncols);
        [intros n Hn; apply elem_of_bottom_edge in Hn; tauto
        | rewrite !length_imap; exact Hs0]).
  cbn [mbind result_bind]. f_equal. unfold set_closed_boundaries_at_grid_edges.
  fold s0. f_equal. apply list_eq. intros n. rewrite !list_lookup_imap.
  destruct (s0 !! n) as [st|] eqn:E; [|reflexivity].
  assert (Hn : n < nrows * ncols) by (rewrite <- Hs0; eapply lookup_lt_Some, E).
  unfold s0 in E. cbn [status_at_node RasterModelGrid] in E.
  rewrite list_lookup_fmap, lookup_seq_lt in E by exact Hn.
  cbn -[on_perimeter] in E. injection E as <-.
  cbn -[on_perimeter Nat.eqb Nat.div Nat.modulo]. f_equal.
  unfold on_perimeter.
  destruct (decide (n ∈ nodes_at_bottom_edge nrows ncols)) as [Hb|Hb];
    rewrite elem_of_bottom_edge in Hb by assumption;
  destruct (decide (n ∈ nodes_at_top_edge nrows ncols)) as [Ht|Ht];
    rewrite elem_of_top_edge in Ht by assumption;
  destruct (decide (n ∈ nodes_at_right_edge nrows ncols)) as [Hri|Hri];
    rewrite elem_of_right_edge in Hri by assumption;
  destruct (decide (n ∈ nodes_at_left_edge nrows ncols)) as [Hle|Hle];
    rewrite elem_of_left_edge in Hle by assumption;
  destruct (Nat.eqb_spec (n / ncols) 0), (Nat.eqb_spec (S (n / ncols)) nrows),
    (Nat.eqb_spec (n mod ncols) 0), (Nat.eqb_spec (S (n mod ncols)) ncols);
  try reflexivity; try (exfalso; tauto); try lia.
Qed.
End BoundaryFacts.

(** ** The range of the data of a digital elevation model *)

Section RangeFacts.
Local Open Scope Q_scope.

Lemma take_where_from {T : Type} (p : T → bool) (pre z : list T) :
  take (pre ++ z) (where_from (length pre) (map p z)) = Ok (List.filter p z).
Proof.
  revert pre. induction z as [|x z IH]; intros pre; [reflexivity|].
  cbn [map where_from List.filter].
  assert (E : pre ++ x :: z = (pre ++ [x]) ++ z) by (rewrite <- app_assoc; reflexivity).
  assert (L : S (length pre) = length (pre ++ [x])) by (rewrite length_app; simpl; lia).
  destruct (p x).
  - assert (G : getitem (pre ++ x :: z) (length pre) = Ok x)
      by (apply getitem_Ok, list_lookup_middle; reflexivity).
    unfold take in *. cbn [mapR]. rewrite G. cbn [mbind result_bind].
    rewrite E, L, IH. reflexivity.
  - rewrite E, L. apply IH.
Qed.

Lemma take_where {T : Type} (p : T → bool) (z : list T) :
  take z (where_ (map p z)) = Ok (List.filter p z).
Proof. apply (take_where_from p [] z). Qed.

Lemma positive_iff (v : Q) : positive v = true ↔ 0 < v.
Proof.
  unfold positive. rewrite negb_true_iff, <- not_true_iff_false, Qle_bool_iff.
  split; [apply Qnot_le_lt | apply Qlt_not_le].
Qed.

Lemma foldl_Qmin_spec (l : list Q) (x : Q) :
  foldl Qmin x l ∈ x :: l ∧ ∀ y, y ∈ x :: l → foldl Qmin x l <= y.
Proof.
  revert x. induction l as [|y l IH]; intros x; cbn [foldl].
  - split; [left|]. intros y Hy. apply list_elem_of_singleton in Hy as ->. apply Qle_refl.
  - destruct (IH (Qmin x y)) as [Hin Hle]. split.
    + apply elem_of_cons in Hin as [E|Hin]; [|right; right; exact Hin].
      rewrite E. unfold Qmin, GenericMinMax.gmin.
      destruct (x ?= y); [left | left | right; left].
    + intros v Hv. apply elem_of_cons in Hv as [->|Hv].
      * eapply Qle_trans; [apply Hle; left | apply Q.le_min_l].
      * apply elem_of_cons in Hv as [->|Hv].
        -- eapply Qle_trans; [apply Hle; left | apply Q.le_min_r].
        -- apply Hle. right. exact Hv.
Qed.

Lemma foldl_Qmax_spec (l : list Q) (x : Q) :
  foldl Qmax x l ∈ x :: l ∧ ∀ y, y ∈ x :: l → y <= foldl Qmax x l.
Proof.
  revert x. induction l as [|y l IH]; intros x; cbn [foldl].
  - split; [left|]. intros y Hy. apply list_elem_of_singleton in Hy as ->. apply Qle_refl.
  - destruct (IH (Qmax x y)) as [Hin Hle]. split.
    + apply elem_of_cons in Hin as [E|Hin]; [|right; right; exact Hin].
      rewrite E. unfold Qmax, GenericMinMax.gmax.
      destruct (x ?= y); [left | right; left | left].
    + intros v Hv. apply elem_of_cons in Hv as [->|Hv].
      * eapply Qle_trans; [apply Q.le_max_l | apply Hle; left].
      * apply elem_of_cons in Hv as [->|Hv].
        -- eapply Qle_trans; [apply Q.le_max_r | apply Hle; left].
        -- apply Hle. right. exact Hv.
Qed.

Lemma elem_of_positive_data (z : list Q) (v : Q) :
  v ∈ List.filter positive z ↔ v ∈ z ∧ 0 < v.
Proof.
  rewrite !list_elem_of_In, filter_In, positive_iff. reflexivity.
Qed.

(** X17.  When the elevations hold a positive value, [min_z] and [max_z]
    return: each is one of the positive elevations, and every positive
    elevation lies between them; the codes of the cells without data,
    which are not positive, play no part. *)
Theorem range_of_positive_data (z : list Q) :
  (∃ v, v ∈ z ∧ 0 < v) →
  ∃ lo hi, min_z z = Ok lo ∧ max_z z = Ok hi ∧
           (lo ∈ z ∧ 0 < lo) ∧ (hi ∈ z ∧ 0 < hi) ∧
           ∀ v, v ∈ z → 0 < v → lo <= v ∧ v <= hi.
Proof.
  intros (v0 & Hv0). apply elem_of_positive_data in Hv0.
  unfold min_z, max_z. rewrite take_where. cbn [mbind result_bind].
  pose proof (elem_of_positive_data z) as Hd.
  destruct (List.filter positive z) as [|x l]; [inversion Hv0|].
  cbn [np_min np_max].
  destruct (foldl_Qmin_spec l x) as [Hmin Hlo].
  destruct (foldl_Qmax_spec l x) as [Hmax Hhi].
  exists (foldl Qmin x l), (foldl Qmax x l).
  split; [reflexivity|]. split; [reflexivity|].
  split; [apply Hd, Hmin|]. split; [apply Hd, Hmax|].
  intros v Hv Hp. split; [apply Hlo | apply Hhi]; apply Hd; split; assumption.
Qed.

(** X18.  When no elevation is positive, [z[np.where(z>0)]] is empty and
    both [min_z] and [max_z] raise [ValueError]. *)
Theorem range_of_no_positive_data_raises (z : list Q) :
  (∀ v, v ∈ z → v <= 0) →
  min_z z = Raise ValueError ∧ max_z z = Raise ValueError.
Proof.
  intros Hz. unfold min_z, max_z. rewrite take_where. cbn [mbind result_bind].
  pose proof (elem_of_positive_data z) as Hd.
  destruct (List.filter positive z) as [|x l]; [split; reflexivity|].
  exfalso. destruct (proj1 (Hd x)) as [Hin Hp]; [left|].
  apply (Qlt_not_le _ _ Hp), Hz, Hin.
Qed.
End RangeFacts.

(** ** The further properties at concrete grids *)

Section Instances.
Local Open Scope Q_scope.

Ltac qcompare := vm_compute; first [reflexivity | discriminate].

Lemma coarse_state_with_flux_clean (h : Q) :
  flux_clean coarse_grid (sediment_flux (coarse_state_with_flux h)).
Proof.
  intros i l Hl Hin.
  do 12 (destruct i as [|i];
         [vm_compute in Hl; injection Hl as <-;
          first [discriminate Hin | reflexivity] |]).
  vm_compute in Hl. discriminate Hl.
Qed.

Lemma coarse_nodes (P : nat → Prop) :
  P 0%nat → P 1%nat → P 2%nat → P 3%nat → P 4%nat → P 5%nat → P 6%nat → P 7%nat →
  P 8%nat → ∀ n, (n < number_of_nodes coarse_grid)%nat → P n.
Proof.
  intros P0 P1 P2 P3 P4 P5 P6 P7 P8 n Hn.
  change (number_of_nodes coarse_grid) with 9%nat in Hn.
  do 9 (destruct n as [|n]; [assumption|]). lia.
Qed.

(** C9 on the 3 x 3 raster, from a state that holds a flux of 7 on the
    active link 3. *)
Lemma flux_is_function_of_elevation_witness :
  let s := coarse_state_with_flux 10 in
  ∃ s', step coarse_grid (1 # 10) 2 s = Ok s' ∧
    (∀ i l, links coarse_grid !! i = Some l →
       sediment_flux s' !! i =
       Some (if link_is_active coarse_grid l
             then fmul (fneg (1 # 10)) (grad_value (topographic__elevation s) l)
             else fzero)) ∧
    (∀ s2, fits coarse_grid s2 → flux_clean coarse_grid (sediment_flux s2) →
       topographic__elevation s2 = topographic__elevation s →
       ∃ s2', step coarse_grid (1 # 10) 2 s2 = Ok s2' ∧
              sediment_flux s2' = sediment_flux s').
Proof.
  intros s.
  apply (flux_is_function_of_elevation coarse_grid (1 # 10) 2 s);
    [reflexivity | split; reflexivity | apply coarse_state_with_flux_clean].
Defined.

(** X1 on the 3 x 3 raster: a flux of 7 left on an active link makes no
    difference to the step. *)
Lemma run_depends_on_elevation_only_witness :
  run 1 coarse_grid (1 # 10) 2 (coarse_state 10) =
  run 1 coarse_grid (1 # 10) 2 (coarse_state_with_flux 10).
Proof.
  apply (run_depends_on_elevation_only 1 coarse_grid (1 # 10) 2
           (coarse_state 10) (coarse_state_with_flux 10));
    [reflexivity | split; reflexivity | split; reflexivity
    | apply flux_clean_add_zeros | apply coarse_state_with_flux_clean
    | reflexivity | lia].
Defined.

(** X2 at the scenario: raising the closed corner node 0 to 5 changes
    nothing elsewhere. *)
Lemma closed_nodes_are_walls_witness :
  let s1 := scenario_state 12 in
  let s2 := mkState (<[0%nat := 5]> (bump scenario_grid 12 10))
                    (add_zeros_at_link scenario_grid) in
  ∃ s1' s2', step scenario_grid (1 # 10) 2 s1 = Ok s1' ∧
    step scenario_grid (1 # 10) 2 s2 = Ok s2' ∧
    sediment_flux s1' = sediment_flux s2' ∧
    ∀ n, status_of scenario_grid n ≠ CLOSED_BOUNDARY →
         topographic__elevation s1' !! n = topographic__elevation s2' !! n.
Proof.
  intros s1 s2.
  apply (closed_nodes_are_walls scenario_grid (1 # 10) 2 s1 s2);
    [reflexivity | split; reflexivity | split; reflexivity | reflexivity |].
  intros n Hn. destruct n as [|n]; [exfalso; apply Hn; reflexivity|].
  reflexivity.
Defined.

(** X4 on the 3 x 3 raster with an empty flux array. *)
Lemma step_raises_on_wrong_flux_size_witness :
  let s := mkState (bump coarse_grid 4 10) [] in
  step coarse_grid (1 # 10) 2 s = Raise IndexError ∨
  step coarse_grid (1 # 10) 2 s = Raise ValueError.
Proof.
  intros s.
  apply (step_raises_on_wrong_flux_size coarse_grid (1 # 10) 2 s);
    [reflexivity | reflexivity | vm_compute; discriminate].
Defined.

(** X5 on the 3 x 3 raster: twice a bump of 10 plus three times a bump
    of 1. *)
Lemma step_is_linear_witness :
  let zeros := add_zeros_at_link coarse_grid in
  let z1 := bump coarse_grid 4 10 in
  let z2 := bump coarse_grid 4 1 in
  ∃ s1 s2 s',
    step coarse_grid (1 # 10) 2 (mkState z1 zeros) = Ok s1 ∧
    step coarse_grid (1 # 10) 2 (mkState z2 zeros) = Ok s2 ∧
    step coarse_grid (1 # 10) 2
         (mkState (zip_with (λ x y, 2 * x + 3 * y) z1 z2) zeros) = Ok s' ∧
    ∀ n, (n < number_of_nodes coarse_grid)%nat →
      topographic__elevation s' !!! n ==
      2 * topographic__elevation s1 !!! n + 3 * topographic__elevation s2 !!! n.
Proof.
  intros zeros z1 z2.
  apply (step_is_linear coarse_grid (1 # 10) 2 2 3 z1 z2 zeros zeros zeros);
    [reflexivity | split; reflexivity | split; reflexivity | reflexivity
    | apply flux_clean_add_zeros | apply flux_clean_add_zeros
    | apply flux_clean_add_zeros].
Defined.

(** X6 on the 3 x 3 raster: the bump of 10 raised by 5. *)
Lemma step_commutes_with_shift_witness :
  let zeros := add_zeros_at_link coarse_grid in
  let z := bump coarse_grid 4 10 in
  ∃ s1 s2,
    step coarse_grid (1 # 10) 2 (mkState z zeros) = Ok s1 ∧
    step coarse_grid (1 # 10) 2 (mkState (map (λ x, x + 5) z) zeros) = Ok s2 ∧
    ∀ n, (n < number_of_nodes coarse_grid)%nat →
      topographic__elevation s2 !!! n == topographic__elevation s1 !!! n + 5.
Proof.
  intros zeros z.
  apply (step_commutes_with_shift coarse_grid (1 # 10) 2 5 z zeros zeros);
    [reflexivity | split; reflexivity | reflexivity
    | apply flux_clean_add_zeros | apply flux_clean_add_zeros].
Defined.

(** X7 on the 3 x 3 raster: D = 0.1 with dt = 2 against D = 0.2 with
    dt = 1. *)
Lemma step_depends_on_product_witness :
  ∃ s1 s2, step coarse_grid (1 # 10) 2 (coarse_state 10) = Ok s1 ∧
    step coarse_grid (2 # 10) 1 (coarse_state 10) = Ok s2 ∧
    ∀ n, (n < number_of_nodes coarse_grid)%nat →
      topographic__elevation s1 !!! n == topographic__elevation s2 !!! n.
Proof.
  apply (step_depends_on_product coarse_grid (1 # 10) 2 (2 # 10) 1 (coarse_state 10));
    [reflexivity | split; reflexivity | apply flux_clean_add_zeros | qcompare].
Defined.

(** X8 on the 3 x 3 raster with a zero diffusivity. *)
Lemma step_with_zero_product_is_identity_witness :
  ∃ s', step coarse_grid 0 2 (coarse_state 10) = Ok s' ∧
    ∀ n, (n < number_of_nodes coarse_grid)%nat →
      topographic__elevation s' !!! n == topographic__elevation (coarse_state 10) !!! n.
Proof.
  apply (step_with_zero_product_is_identity coarse_grid 0 2 (coarse_state 10));
    [reflexivity | split; reflexivity | apply flux_clean_add_zeros | qcompare].
Defined.

(** X9 on the 3 x 3 raster of spacing 2 with D = 0.1 and dt at the bound
    0.2 * 2 * 2 / 0.1 = 8: three steps keep the bump of 10 within [0, 10]. *)
Lemma run_keeps_range_witness :
  ∃ s', run 3 coarse_grid (1 # 10) 8 (coarse_state 10) = Ok s' ∧
    ∀ n, (n < number_of_nodes coarse_grid)%nat →
         0 <= topographic__elevation s' !!! n ∧ topographic__elevation s' !!! n <= 10.
Proof.
  apply (run_keeps_range 3 coarse_grid (1 # 10) 8 2 0 10 (coarse_state 10));
    [reflexivity | split; reflexivity | apply flux_clean_add_zeros
    | reflexivity | reflexivity | qcompare | qcompare | qcompare | qcompare |].
  apply coarse_nodes; split; qcompare.
Defined.

(** X10 on the 3 x 3 raster: the bump of 1 under the bump of 10. *)
Lemma step_is_monotone_witness :
  ∃ s1' s2', step coarse_grid (1 # 10) 8 (coarse_state 1) = Ok s1' ∧
    step coarse_grid (1 # 10) 8 (coarse_state 10) = Ok s2' ∧
    ∀ n, (n < number_of_nodes coarse_grid)%nat →
         topographic__elevation s1' !!! n <= topographic__elevation s2' !!! n.
Proof.
  apply (step_is_monotone coarse_grid (1 # 10) 8 2 (coarse_state 1) (coarse_state 10));
    [reflexivity | split; reflexivity | split; reflexivity
    | apply flux_clean_add_zeros | apply flux_clean_add_zeros
    | reflexivity | reflexivity | qcompare | qcompare | qcompare | qcompare |].
  apply coarse_nodes; qcompare.
Defined.

(** X11 on the 3 x 3 raster, whose core node loses elevation to the four
    fixed-value nodes around it. *)
Lemma step_budget_witness :
  ∃ s', step coarse_grid (1 # 10) 2 (coarse_state 10) = Ok s' ∧
    sum_at (λ n, topographic__elevation s' !!! n) (core_nodes coarse_grid) ==
    sum_at (λ n, topographic__elevation (coarse_state 10) !!! n) (core_nodes coarse_grid)
    - 2 * outflow coarse_grid (1 # 10) (topographic__elevation (coarse_state 10)) / (2 * 2).
Proof.
  apply (step_budget coarse_grid (1 # 10) 2 2 (coarse_state 10));
    [reflexivity | split; reflexivity | apply flux_clean_add_zeros | reflexivity].
Defined.

(** X12 at the scenario, three steps. *)
Lemma run_conserves_sum_witness :
  ∃ s', run 3 scenario_grid (1 # 10) 2 (scenario_state 12) = Ok s' ∧
    sum_at (λ n, topographic__elevation s' !!! n) (core_nodes scenario_grid) ==
    sum_at (λ n, topographic__elevation (scenario_state 12) !!! n)
           (core_nodes scenario_grid).
Proof.
  apply (run_conserves_sum 3 scenario_grid (1 # 10) 2 1 (scenario_state 12));
    [reflexivity | split; reflexivity | apply flux_clean_add_zeros
    | reflexivity | reflexivity].
Defined.

(** X13 at node 7 of a 3 x 3 raster of spacing 30, at x = 30 and y = 60,
    north of the trace. *)
Lemma earthquake_raises_north_of_trace_witness :
  ∃ z, earthquake (x_of_node 3 3 30) (y_of_node 3 3 30)
                  (add_zeros_at_node (RasterModelGrid 3 3 30)) = Ok z ∧
    length z = (3 * 3)%nat ∧
    let x := inject_Z (Z.of_nat (7 mod 3)) * 30 in
    let y := inject_Z (Z.of_nat (7 / 3)) * 30 in
    (50 + (1 # 4) * x < y → z !!! 7%nat == 10 + (1 # 100) * x) ∧
    (y <= 50 + (1 # 4) * x → z !!! 7%nat == 0).
Proof.
  apply (earthquake_raises_north_of_trace 3 3 30 7); [lia | lia | qcompare | lia].
Defined.

(** X14 on a 3 x 3 raster of spacing 30 with the tutorial's diffusivity,
    two passes. *)
Lemma fault_scarp_stays_in_range_witness :
  ∃ s, fault_scarp 3 3 30 (1 # 100) 2 = Ok s ∧
    length (topographic__elevation s) = (3 * 3)%nat ∧
    ∀ n, (n < 3 * 3)%nat →
      0 <= topographic__elevation s !!! n ∧
      topographic__elevation s !!! n
        <= 10 + (1 # 100) * (inject_Z (Z.of_nat (3 - 1)) * 30).
Proof.
  apply (fault_scarp_stays_in_range 3 3 30 (1 # 100) 2); [lia | lia | qcompare | qcompare].
Defined.

(** X15 at the grid of the fault-scarp notebook, 25 x 40 with the east and
    west edges closed: 1000 nodes, 1935 links, 874 core nodes. *)
Lemma raster_counts_witness :
  let mg := set_closed_boundaries_at_grid_edges 25 40 true false true false
              (RasterModelGrid 25 40 (10 : Q)) in
  number_of_nodes mg = 1000%nat ∧
  number_of_links mg = 1935%nat ∧
  length (core_nodes mg) = 874%nat ∧
  length (add_zeros_at_node mg) = 1000%nat.
Proof.
  apply (raster_counts 25 40 (10 : Q) true false true false); lia.
Defined.

(** X16 on the 3 x 4 raster of the fields tutorial. *)
Lemma component_tutorial_boundaries_are_fault_scarp_boundaries_witness :
  component_tutorial_boundaries 3 4 (RasterModelGrid 3 4 (1 : Q)) =
  Ok (set_closed_boundaries_at_grid_edges 3 4 true false true false
        (RasterModelGrid 3 4 (1 : Q))).
Proof.
  apply (component_tutorial_boundaries_are_fault_scarp_boundaries 3 4 (1 : Q)); lia.
Defined.

(** X17 with one cell without data, coded -9999. *)
Lemma range_of_positive_data_witness :
  let z := [-9999; 3; 1; 2] in
  ∃ lo hi, min_z z = Ok lo ∧ max_z z = Ok hi ∧
           (lo ∈ z ∧ 0 < lo) ∧ (hi ∈ z ∧ 0 < hi) ∧
           ∀ v, v ∈ z → 0 < v → lo <= v ∧ v <= hi.
Proof.
  intros z. apply (range_of_positive_data z).
  exists 3. split; [right; left | qcompare].
Defined.

(** X18 with no positive elevation. *)
Lemma range_of_no_positive_data_raises_witness :
  min_z [-9999; 0] = Raise ValueError ∧ max_z [-9999; 0] = Raise ValueError.
Proof.
  apply (range_of_no_positive_data_raises [-9999; 0]).
  intros v Hv. apply elem_of_cons in Hv as [->|Hv]; [qcompare|].
  apply list_elem_of_singleton in Hv as ->. qcompare.
Defined.
End Instances.
